(** * Credit wallet and AI integration client of the Xeno software suite

    A shallow embedding of [shared/ai-integration/src/ai_integration.cpp]
    (classes [CreditWallet] and [AIIntegration]) together with the
    properties of the credit ledger, the provider configuration and the
    per-modality operations.

    Conventions of the embedding:
    - a C++ [int] is a [Z]; every arithmetic operation of the source is
      followed by the reduction to 32-bit two's complement ([CInt.wrap]).
      ISO C++ leaves signed overflow undefined; the model fixes the result
      that the supported compilers produce, and every theorem that reads a
      result as a mathematical integer says when no overflow happens;
    - a member function is a function from the object's state to a result
      and a new state ([State]);
    - [std::map] is a [gmap], [std::vector] a [list], [std::string] a
      [string]. *)

From Stdlib Require Import ZArith Lia.
From stdpp Require Import gmap strings list pretty.
From stdpp Require Import sorting.

Open Scope Z_scope.

(** ** C++ integers *)

Module CInt.

Definition INT_MIN : Z := -2147483648.
Definition INT_MAX : Z := 2147483647.

(** The values of type [int]. *)
Definition in_range (z : Z) : Prop := INT_MIN <= z <= INT_MAX.

(** Reduction of a mathematical integer to 32-bit two's complement:
    conversion to [int], and the result of [int] arithmetic. *)
Definition wrap (z : Z) : Z := (z + 2 ^ 31) mod 2 ^ 32 - 2 ^ 31.

Definition add (a b : Z) : Z := wrap (a + b).
Definition sub (a b : Z) : Z := wrap (a - b).
Definition neg (a : Z) : Z := wrap (- a).

(** Conversion to [std::size_t] (64 bits, unsigned). *)
Definition to_size_t (z : Z) : Z := z mod 2 ^ 64.

(** [std::to_string] of an unsigned value: its decimal digits. *)
Definition to_string (z : Z) : string := pretty (Z.to_N z).

End CInt.

(** ** Member functions as state transformers *)

Definition State (S A : Type) : Type := S → A * S.

Global Instance State_ret {S} : MRet (State S) := λ A a s, (a, s).
Global Instance State_bind {S} : MBind (State S) :=
  λ A B k m s, let (a, s') := m s in k a s'.
Definition get {S} : State S S := λ s, (s, s).
Definition modify {S} (f : S → S) : State S () := λ s, ((), f s).

(** Outcome of code that can index a vector out of bounds. [Undefined] is
    the out-of-bounds access; [OutOfFuel] is the loop bound of the model
    running out, which [getTransactionHistory_fuel] shows never happens at
    the bound the model uses. *)
Inductive outcome (A : Type) : Type :=
| Done (a : A)
| Undefined
| OutOfFuel.
Arguments Done {A} a.
Arguments Undefined {A}.
Arguments OutOfFuel {A}.

(** ** CreditWallet *)

Module CreditWallet.

Record Transaction : Type := mkTransaction {
  id : string;
  operation : string;
  credits : Z;
  timestamp : string;
  success : bool
}.

(** [CreditWallet::Impl]. *)
Record Impl : Type := mkImpl {
  user_token : string;
  xeno_labs_endpoint : string;
  cached_balance : Z;
  transactions : list Transaction
}.

(** The member initialisers of [Impl]. *)
Definition Impl_default : Impl :=
  {| user_token := "";
     xeno_labs_endpoint := "https://api.xenolabs.ai";
     cached_balance := 0;
     transactions := [] |}.

Definition set_user_token (t : string) (w : Impl) : Impl :=
  {| user_token := t;
     xeno_labs_endpoint := xeno_labs_endpoint w;
     cached_balance := cached_balance w;
     transactions := transactions w |}.

Definition set_cached_balance (b : Z) (w : Impl) : Impl :=
  {| user_token := user_token w;
     xeno_labs_endpoint := xeno_labs_endpoint w;
     cached_balance := b;
     transactions := transactions w |}.

Definition push_back_transaction (t : Transaction) (w : Impl) : Impl :=
  {| user_token := user_token w;
     xeno_labs_endpoint := xeno_labs_endpoint w;
     cached_balance := cached_balance w;
     transactions := transactions w ++ [t] |}.

(** The constructor: a default [Impl] whose balance is then set to the
    demo credits. *)
Definition seed_balance : Z := 100.
Definition new : Impl := set_cached_balance seed_balance Impl_default.

(** [transactions.size()], a [size_t]. *)
Definition size (w : Impl) : Z := Z.of_nat (length (transactions w)).

(** ["tx_" + std::to_string(transactions.size() + 1)]. *)
Definition next_id (w : Impl) : string :=
  "tx_" +:+ CInt.to_string (CInt.to_size_t (size w + 1)).

Definition authenticate (token : string) : State Impl bool :=
  (modify (set_user_token token) ;;
   mret (negb (String.eqb token ""))).

Definition getBalance : State Impl Z :=
  (w ← get; mret (cached_balance w)).

Definition deductCredits (amount : Z) (op : string) : State Impl bool :=
  (w ← get;
   if cached_balance w >=? amount then
     modify (set_cached_balance (CInt.sub (cached_balance w) amount)) ;;
     w1 ← get;
     modify (push_back_transaction
               {| id := next_id w1;
                  operation := op;
                  credits := CInt.neg amount;
                  timestamp := "2024-01-01T00:00:00Z";
                  success := true |}) ;;
     mret true
   else mret false).

Definition addCredits (amount : Z) : State Impl bool :=
  (w ← get;
   modify (set_cached_balance (CInt.add (cached_balance w) amount)) ;;
   w1 ← get;
   modify (push_back_transaction
             {| id := next_id w1;
                operation := "credit_purchase";
                credits := amount;
                timestamp := "2024-01-01T00:00:00Z";
                success := true |}) ;;
   mret true).

(** [transactions[i]] for an [int] index: the index is converted to
    [size_t]; outside the vector the access is undefined. *)
Fixpoint vector_at (v : list Transaction) (i : Z) : option Transaction :=
  match v with
  | [] => None
  | t :: v' => if i =? 0 then Some t else vector_at v' (i - 1)
  end.

Definition at_index (w : Impl) (i : Z) : option Transaction :=
  vector_at (transactions w) (CInt.to_size_t i).

(** The [for] loop of [getTransactionHistory]: [i] runs up to
    [static_cast<int>(transactions.size())]. *)
Fixpoint history_loop (fuel : nat) (w : Impl) (i : Z)
    (result : list Transaction) : outcome (list Transaction) :=
  if i <? CInt.wrap (size w) then
    match fuel with
    | O => OutOfFuel
    | S fuel' =>
        match at_index w i with
        | Some t => history_loop fuel' w (CInt.add i 1) (result ++ [t])
        | None => Undefined
        end
    end
  else Done result.

(** [transactions.size() - count] is computed in [size_t] and converted
    to [int] for the loop variable. *)
Definition history_start (w : Impl) (count : Z) : Z :=
  CInt.wrap (CInt.to_size_t (size w - CInt.to_size_t count)).

Definition getTransactionHistory (limit : Z) (w : Impl)
    : outcome (list Transaction) :=
  let count := Z.min limit (CInt.wrap (size w)) in
  history_loop (S (length (transactions w))) w (history_start w count) [].

End CreditWallet.

(** ** JSON values (nlohmann::json)

    The library is not part of the repository; only the shape of a value
    matters here: whether it is an object, which keys it has, and whether a
    field is a string. Objects are association lists read by key. *)

#[local] Unset Elimination Schemes.
Inductive json : Type :=
| JNull
| JBool (b : bool)
| JNumber (n : Z)
| JString (s : string)
| JArray (items : list json)
| JObject (fields : list (string * json)).
#[local] Set Elimination Schemes.

(** A result or a thrown [std::exception]. *)
Inductive exn (A : Type) : Type :=
| Ok (a : A)
| Throw (what : string).
Arguments Ok {A} a.
Arguments Throw {A} what.

Module Json.

Fixpoint find (fields : list (string * json)) (key : string) : option json :=
  match fields with
  | [] => None
  | (k, v) :: rest => if String.eqb k key then Some v else find rest key
  end.

(** [j.contains(key)]: false on anything that is not an object. *)
Definition contains (j : json) (key : string) : bool :=
  match j with
  | JObject fields => bool_decide (is_Some (find fields key))
  | _ => false
  end.

(** [j[key]] on a non-const value: a missing key of an object, and any key
    of null, yield null (which the library inserts into the local copy);
    any other kind of value throws [type_error]. *)
Definition at_key (j : json) (key : string) : exn json :=
  match j with
  | JObject fields => Ok (default JNull (find fields key))
  | JNull => Ok JNull
  | _ => Throw "cannot use operator[] with a string argument"
  end.

(** The implicit conversion to [std::string]. *)
Definition get_string (j : json) : exn string :=
  match j with
  | JString s => Ok s
  | _ => Throw "type must be string"
  end.

End Json.

(** ** AIIntegration *)

Module AIIntegration.

Record APIConfig : Type := mkAPIConfig {
  endpoint : string;
  api_key : string;
  headers : gmap string string
}.

Record AIRequest : Type := mkAIRequest {
  prompt : string;
  model : string;
  parameters : gmap string json;
  operation_type : string
}.

Record AIResponse : Type := mkAIResponse {
  success : bool;
  content : string;
  credits_used : Z;
  error_message : string;
  metadata : json
}.

Inductive AIProvider : Type := XenoCloud | OpenRouter | Ollama.

Global Instance AIProvider_eq_dec : EqDecision AIProvider.
Proof. solve_decision. Defined.

Global Instance AIProvider_countable : Countable AIProvider.
Proof.
  refine (inj_countable'
    (λ p, match p with XenoCloud => 0 | OpenRouter => 1 | Ollama => 2 end)%nat
    (λ n, match n with 0 => XenoCloud | 1 => OpenRouter | _ => Ollama end)%nat
    _).
  by intros [].
Defined.

(** [AIIntegration::Impl]: the wallet is owned, so it is part of the
    state. *)
Record Impl : Type := mkImpl {
  configs : gmap AIProvider APIConfig;
  wallet : CreditWallet.Impl
}.

(** The constructor. *)
Definition new : Impl := {| configs := ∅; wallet := CreditWallet.new |}.

Definition set_configs (c : gmap AIProvider APIConfig) (s : Impl) : Impl :=
  {| configs := c; wallet := wallet s |}.

(** A call of a member function of the owned wallet. *)
Definition on_wallet {A} (m : State CreditWallet.Impl A) : State Impl A :=
  λ s, let (a, w') := m (wallet s) in (a, {| configs := configs s; wallet := w' |}).

(** An [APIConfig] declared without initialiser: empty strings and map. *)
Definition APIConfig_default : APIConfig :=
  {| endpoint := ""; api_key := ""; headers := ∅ |}.

Definition set_endpoint (e : string) (c : APIConfig) : APIConfig :=
  {| endpoint := e; api_key := api_key c; headers := headers c |}.
Definition set_api_key (k : string) (c : APIConfig) : APIConfig :=
  {| endpoint := endpoint c; api_key := k; headers := headers c |}.
Definition set_header (name value : string) (c : APIConfig) : APIConfig :=
  {| endpoint := endpoint c; api_key := api_key c;
     headers := <[name := value]> (headers c) |}.

(** What an [AIResponse] declared without initialiser holds in its [bool]
    and [int] members: the language leaves it indeterminate. *)
Record Indeterminate : Type := mkIndeterminate {
  any_bool : bool;
  any_int : Z
}.

Definition AIResponse_uninit (u : Indeterminate) : AIResponse :=
  {| success := any_bool u;
     content := "";
     credits_used := any_int u;
     error_message := "";
     metadata := JNull |}.

Definition set_success (b : bool) (r : AIResponse) : AIResponse :=
  {| success := b; content := content r; credits_used := credits_used r;
     error_message := error_message r; metadata := metadata r |}.
Definition set_content (c : string) (r : AIResponse) : AIResponse :=
  {| success := success r; content := c; credits_used := credits_used r;
     error_message := error_message r; metadata := metadata r |}.
Definition set_credits_used (n : Z) (r : AIResponse) : AIResponse :=
  {| success := success r; content := content r; credits_used := n;
     error_message := error_message r; metadata := metadata r |}.
Definition set_error_message (e : string) (r : AIResponse) : AIResponse :=
  {| success := success r; content := content r;
     credits_used := credits_used r; error_message := e;
     metadata := metadata r |}.

Definition configure (provider : AIProvider) (config : APIConfig)
    : State Impl bool :=
  modify (λ s, set_configs (<[provider := config]> (configs s)) s) ;;
  mret true.

(** Code that can throw: the state reached so far survives the throw. *)
Definition Throwing (A : Type) : Type := State Impl (exn A).

Definition throwing_bind {A B} (m : Throwing A) (k : A → Throwing B)
    : Throwing B :=
  λ s, let (r, s') := m s in
       match r with Ok a => k a s' | Throw e => (Throw e, s') end.
Definition lift_exn {A} (r : exn A) : Throwing A := λ s, (r, s).
Definition lift_state {A} (m : State Impl A) : Throwing A :=
  λ s, let (a, s') := m s in (Ok a, s').

Notation "x ←? m ; k" := (throwing_bind m (λ x, k))
  (at level 20, m at level 100, k at level 200, only parsing).

(** [try { body } catch (const std::exception& e) { handler }]. *)
Definition try_catch {A} (body : Throwing A) (handler : string → State Impl A)
    : State Impl A :=
  λ s, let (r, s') := body s in
       match r with Ok a => (a, s') | Throw e => handler e s' end.

Section Environment.

(** The file system and the JSON parser are outside the program:
    [ifstream_open path] is the text of the file when it can be opened,
    [json_parse text] the document when [file >> config] does not
    throw. *)
Variable ifstream_open : string → option string.
Variable json_parse : string → option json.

Definition parse_stream (text : string) : exn json :=
  match json_parse text with
  | Some j => Ok j
  | None => Throw "parse error"
  end.

(** [config[section][field]] converted to [std::string]. *)
Definition string_field (config : json) (section field : string)
    : exn string :=
  match Json.at_key config section with
  | Ok sec =>
      match Json.at_key sec field with
      | Ok v => Json.get_string v
      | Throw e => Throw e
      end
  | Throw e => Throw e
  end.

Definition load_xeno_ai (config : json) : Throwing () :=
  if Json.contains config "xeno_ai" then
    let xeno_config := APIConfig_default in
    e ←? lift_exn (string_field config "xeno_ai" "endpoint");
    let xeno_config := set_endpoint e xeno_config in
    k ←? lift_exn (string_field config "xeno_ai" "api_key");
    let xeno_config := set_api_key k xeno_config in
    let xeno_config :=
      set_header "Authorization" ("Bearer " +:+ api_key xeno_config)
        xeno_config in
    lift_state (configure XenoCloud xeno_config ;; mret ())
  else lift_exn (Ok ()).

Definition load_open_router (config : json) : Throwing () :=
  if Json.contains config "open_router" then
    let router_config := APIConfig_default in
    e ←? lift_exn (string_field config "open_router" "endpoint");
    let router_config := set_endpoint e router_config in
    k ←? lift_exn (string_field config "open_router" "api_key");
    let router_config := set_api_key k router_config in
    let router_config :=
      set_header "Authorization" ("Bearer " +:+ api_key router_config)
        router_config in
    lift_state (configure OpenRouter router_config ;; mret ())
  else lift_exn (Ok ()).

Definition load_ollama (config : json) : Throwing () :=
  if Json.contains config "ollama" then
    let ollama_config := APIConfig_default in
    e ←? lift_exn (string_field config "ollama" "endpoint");
    let ollama_config := set_endpoint e ollama_config in
    lift_state (configure Ollama ollama_config ;; mret ())
  else lift_exn (Ok ()).

Definition loadConfigFromFile (config_path : string) : State Impl bool :=
  try_catch
    (match ifstream_open config_path with
     | None => lift_exn (Ok false)
     | Some text =>
         config ←? lift_exn (parse_stream text);
         _ ←? load_xeno_ai config;
         _ ←? load_open_router config;
         _ ←? load_ollama config;
         lift_exn (Ok true)
     end)
    (λ _, mret false).

End Environment.

Definition getCreditBalance : State Impl Z :=
  on_wallet CreditWallet.getBalance.

Definition deductCredits (amount : Z) : State Impl bool :=
  on_wallet (CreditWallet.deductCredits amount "api_call").

Definition validateCredits (required_credits : Z) : State Impl bool :=
  b ← getCreditBalance; mret (b >=? required_credits).

(** [provider == AIProvider::XenoCloud]. *)
Definition is_XenoCloud (provider : AIProvider) : bool :=
  match provider with
  | XenoCloud => true
  | _ => false
  end.

(** The per-modality operations. Each declares [response] without
    initialiser, returns early when the metered provider lacks credits,
    and otherwise fills the placeholder answer and, for the metered
    provider, deducts what it reports (the result of [deductCredits] is
    dropped). *)

Definition generateImage (u : Indeterminate) (request : AIRequest)
    (provider : AIProvider) : State Impl AIResponse :=
  let response := AIResponse_uninit u in
  insufficient ←
    (if is_XenoCloud provider then
       let required_credits := 3 in
       v ← validateCredits required_credits; mret (negb v)
     else mret false);
  if insufficient : bool then
    let response := set_success false response in
    let response := set_error_message "Insufficient credits" response in
    mret response
  else
    let response := set_success true response in
    let response := set_content "Generated image data (placeholder)" response in
    let response :=
      set_credits_used (if is_XenoCloud provider then 3 else 0) response in
    (if is_XenoCloud provider then
       deductCredits (credits_used response) ;; mret ()
     else mret ()) ;;
    mret response.

Definition processVideo (u : Indeterminate) (request : AIRequest)
    (provider : AIProvider) : State Impl AIResponse :=
  let response := AIResponse_uninit u in
  insufficient ←
    (if is_XenoCloud provider then
       let required_credits := 5 in
       v ← validateCredits required_credits; mret (negb v)
     else mret false);
  if insufficient : bool then
    let response := set_success false response in
    let response := set_error_message "Insufficient credits" response in
    mret response
  else
    let response := set_success true response in
    let response := set_content "Processed video data (placeholder)" response in
    let response :=
      set_credits_used (if is_XenoCloud provider then 5 else 0) response in
    (if is_XenoCloud provider then
       deductCredits (credits_used response) ;; mret ()
     else mret ()) ;;
    mret response.

Definition processAudio (u : Indeterminate) (request : AIRequest)
    (provider : AIProvider) : State Impl AIResponse :=
  let response := AIResponse_uninit u in
  insufficient ←
    (if is_XenoCloud provider then
       let required_credits := 2 in
       v ← validateCredits required_credits; mret (negb v)
     else mret false);
  if insufficient : bool then
    let response := set_success false response in
    let response := set_error_message "Insufficient credits" response in
    mret response
  else
    let response := set_success true response in
    let response := set_content "Processed audio data (placeholder)" response in
    let response :=
      set_credits_used (if is_XenoCloud provider then 2 else 0) response in
    (if is_XenoCloud provider then
       deductCredits (credits_used response) ;; mret ()
     else mret ()) ;;
    mret response.

Definition completeCode (u : Indeterminate) (request : AIRequest)
    (provider : AIProvider) : State Impl AIResponse :=
  let response := AIResponse_uninit u in
  insufficient ←
    (if is_XenoCloud provider then
       let required_credits := 1 in
       v ← validateCredits required_credits; mret (negb v)
     else mret false);
  if insufficient : bool then
    let response := set_success false response in
    let response := set_error_message "Insufficient credits" response in
    mret response
  else
    let response := set_success true response in
    let response := set_content "Code completion suggestion (placeholder)" response in
    let response :=
      set_credits_used (if is_XenoCloud provider then 1 else 0) response in
    (if is_XenoCloud provider then
       deductCredits (credits_used response) ;; mret ()
     else mret ()) ;;
    mret response.

Definition chatCompletion (u : Indeterminate) (request : AIRequest)
    (provider : AIProvider) : State Impl AIResponse :=
  let response := AIResponse_uninit u in
  insufficient ←
    (if is_XenoCloud provider then
       let required_credits := 1 in
       v ← validateCredits required_credits; mret (negb v)
     else mret false);
  if insufficient : bool then
    let response := set_success false response in
    let response := set_error_message "Insufficient credits" response in
    mret response
  else
    let response := set_success true response in
    let response := set_content "Chat response (placeholder)" response in
    let response :=
      set_credits_used (if is_XenoCloud provider then 1 else 0) response in
    (if is_XenoCloud provider then
       deductCredits (credits_used response) ;; mret ()
     else mret ()) ;;
    mret response.

Definition makeAPICall (u : Indeterminate) (provider : AIProvider)
    (endpoint : string) (payload : json) : State Impl AIResponse :=
  let response := AIResponse_uninit u in
  let response := set_success true response in
  let response := set_content "API response (placeholder)" response in
  let response :=
    set_credits_used (if is_XenoCloud provider then 1 else 0) response in
  mret response.

Definition isProviderAvailable (provider : AIProvider) : State Impl bool :=
  s ← get; mret (bool_decide (is_Some (configs s !! provider))).


End AIIntegration.

(** ** Runs of a wallet

    The calls a client can make on a [CreditWallet], and the wallet a
    sequence of calls leaves behind. *)

Module Ledger.

Inductive WalletCall : Type :=
| Authenticate (token : string)
| GetBalance
| DeductCredits (amount : Z) (op : string)
| AddCredits (amount : Z)
| GetTransactionHistory (limit : Z).

(** The wallet after one call. [getTransactionHistory] returns a copy of
    a part of the log and writes nothing. *)
Definition call (c : WalletCall) (w : CreditWallet.Impl) : CreditWallet.Impl :=
  match c with
  | Authenticate token => (CreditWallet.authenticate token w).2
  | GetBalance => (CreditWallet.getBalance w).2
  | DeductCredits amount op => (CreditWallet.deductCredits amount op w).2
  | AddCredits amount => (CreditWallet.addCredits amount w).2
  | GetTransactionHistory _ => w
  end.

Fixpoint run (cs : list WalletCall) (w : CreditWallet.Impl) : CreditWallet.Impl :=
  match cs with
  | [] => w
  | c :: cs' => run cs' (call c w)
  end.

(** The credit delta a call applies: a deduction that returns false
    applies none. *)
Definition delta (c : WalletCall) (w : CreditWallet.Impl) : Z :=
  match c with
  | DeductCredits amount op =>
      if (CreditWallet.deductCredits amount op w).1 then CInt.neg amount else 0
  | AddCredits amount => amount
  | _ => 0
  end.

(** Whether a call appends a transaction. *)
Definition applied (c : WalletCall) (w : CreditWallet.Impl) : bool :=
  match c with
  | DeductCredits amount op => (CreditWallet.deductCredits amount op w).1
  | AddCredits amount => (CreditWallet.addCredits amount w).1
  | _ => false
  end.

(** The entry [deductCredits] logs when it succeeds. *)
Definition deduction_entry (amount : Z) (op : string) (w : CreditWallet.Impl)
    : CreditWallet.Transaction :=
  {| CreditWallet.id := CreditWallet.next_id w;
     CreditWallet.operation := op;
     CreditWallet.credits := CInt.neg amount;
     CreditWallet.timestamp := "2024-01-01T00:00:00Z";
     CreditWallet.success := true |}.

(** The entry [addCredits] logs. *)
Definition purchase_entry (amount : Z) (w : CreditWallet.Impl)
    : CreditWallet.Transaction :=
  {| CreditWallet.id := CreditWallet.next_id w;
     CreditWallet.operation := "credit_purchase";
     CreditWallet.credits := amount;
     CreditWallet.timestamp := "2024-01-01T00:00:00Z";
     CreditWallet.success := true |}.

Fixpoint deltas (cs : list WalletCall) (w : CreditWallet.Impl) : list Z :=
  match cs with
  | [] => []
  | c :: cs' => delta c w :: deltas cs' (call c w)
  end.

Fixpoint applied_count (cs : list WalletCall) (w : CreditWallet.Impl) : nat :=
  match cs with
  | [] => O
  | c :: cs' => ((if applied c w then 1 else 0) + applied_count cs' (call c w))%nat
  end.

Definition sum (l : list Z) : Z := foldr Z.add 0 l.

(** The credit deltas recorded in the transaction log. *)
Definition log_deltas (w : CreditWallet.Impl) : list Z :=
  CreditWallet.credits <$> CreditWallet.transactions w.

Definition in_rangeb (z : Z) : bool :=
  (CInt.INT_MIN <=? z) && (z <=? CInt.INT_MAX).

(** No [int] operation of the call overflows: the mathematical results of
    [cached_balance -= amount], [-amount] and [cached_balance += amount]
    are values of type [int]. *)
Definition call_exact (c : WalletCall) (w : CreditWallet.Impl) : bool :=
  match c with
  | DeductCredits amount _ =>
      if CreditWallet.cached_balance w >=? amount then
        in_rangeb (CreditWallet.cached_balance w - amount) && in_rangeb (- amount)
      else true
  | AddCredits amount => in_rangeb (CreditWallet.cached_balance w + amount)
  | _ => true
  end.

Fixpoint no_overflow (cs : list WalletCall) (w : CreditWallet.Impl) : bool :=
  match cs with
  | [] => true
  | c :: cs' => call_exact c w && no_overflow cs' (call c w)
  end.

(** A call that cannot take the balance below zero: a top-up whose
    mathematical result is a non-negative [int], a deduction whose
    subtraction does not overflow. *)
Definition call_keeps_nonneg (c : WalletCall) (w : CreditWallet.Impl) : bool :=
  match c with
  | DeductCredits amount _ =>
      if CreditWallet.cached_balance w >=? amount then
        CreditWallet.cached_balance w - amount <=? CInt.INT_MAX
      else true
  | AddCredits amount =>
      (0 <=? CreditWallet.cached_balance w + amount)
      && (CreditWallet.cached_balance w + amount <=? CInt.INT_MAX)
  | _ => true
  end.

Fixpoint keeps_nonneg (cs : list WalletCall) (w : CreditWallet.Impl) : bool :=
  match cs with
  | [] => true
  | c :: cs' => call_keeps_nonneg c w && keeps_nonneg cs' (call c w)
  end.

(** Every deduction of the sequence carries a non-empty label. *)
Definition labelled (c : WalletCall) : bool :=
  match c with
  | DeductCredits _ op => negb (String.eqb op "")
  | _ => true
  end.

(** Every amount of the sequence is a non-zero [int]. *)
Definition nonzero_amount (c : WalletCall) : bool :=
  match c with
  | DeductCredits amount _ | AddCredits amount =>
      in_rangeb amount && negb (amount =? 0)
  | _ => true
  end.

End Ledger.

(** ** The per-modality operations and their fixed costs *)

Module Modality.

Inductive t : Type := Image | Video | Audio | Code | Chat.

(** The cost the specification gives for each operation. *)
Definition cost (m : t) : Z :=
  match m with
  | Image => 3
  | Video => 5
  | Audio => 2
  | Code => 1
  | Chat => 1
  end.

(** The placeholder answer of each operation. *)
Definition placeholder (m : t) : string :=
  match m with
  | Image => "Generated image data (placeholder)"
  | Video => "Processed video data (placeholder)"
  | Audio => "Processed audio data (placeholder)"
  | Code => "Code completion suggestion (placeholder)"
  | Chat => "Chat response (placeholder)"
  end.

Definition perform (m : t)
    : AIIntegration.Indeterminate → AIIntegration.AIRequest →
      AIIntegration.AIProvider →
      State AIIntegration.Impl AIIntegration.AIResponse :=
  match m with
  | Image => AIIntegration.generateImage
  | Video => AIIntegration.processVideo
  | Audio => AIIntegration.processAudio
  | Code => AIIntegration.completeCode
  | Chat => AIIntegration.chatCompletion
  end.

End Modality.

(** ** Provider sections of the configuration file *)

Module ConfigFile.

Definition section_name (p : AIIntegration.AIProvider) : string :=
  match p with
  | AIIntegration.XenoCloud => "xeno_ai"
  | AIIntegration.OpenRouter => "open_router"
  | AIIntegration.Ollama => "ollama"
  end.

(** The fields [loadConfigFromFile] reads from a section. *)
Definition section_fields (p : AIIntegration.AIProvider) : list string :=
  match p with
  | AIIntegration.XenoCloud => ["endpoint"; "api_key"]
  | AIIntegration.OpenRouter => ["endpoint"; "api_key"]
  | AIIntegration.Ollama => ["endpoint"]
  end.

Definition is_Ok {A} (r : exn A) : bool :=
  match r with Ok _ => true | Throw _ => false end.

(** A section is readable when each of its fields is a string. *)
Definition section_readable (config : json) (p : AIIntegration.AIProvider) : bool :=
  forallb (λ f, is_Ok (AIIntegration.string_field config (section_name p) f))
    (section_fields p).

(** Every section that is present is readable. *)
Definition sections_ok (config : json) : bool :=
  forallb (λ p, negb (Json.contains config (section_name p))
                || section_readable config p)
    [AIIntegration.XenoCloud; AIIntegration.OpenRouter; AIIntegration.Ollama].

(** The three loaders, run in the order of the source; the first throw
    stops the sequence and keeps the state it has reached. *)
Definition load_sections (config : json) : AIIntegration.Throwing bool :=
  AIIntegration.throwing_bind (AIIntegration.load_xeno_ai config) (λ _,
  AIIntegration.throwing_bind (AIIntegration.load_open_router config) (λ _,
  AIIntegration.throwing_bind (AIIntegration.load_ollama config) (λ _,
  AIIntegration.lift_exn (Ok true)))).

(** A loader never touches the wallet nor the entry of another provider;
    it does nothing when its section is missing, writes when the section
    is readable, and throws without writing when the section is present
    and unreadable. *)
Definition loader_ok (load : json → AIIntegration.Throwing ())
    (p : AIIntegration.AIProvider) : Prop :=
  ∀ config s,
    let '(r, s') := load config s in
    AIIntegration.wallet s' = AIIntegration.wallet s
    ∧ (∀ p', p' ≠ p →
             AIIntegration.configs s' !! p' = AIIntegration.configs s !! p')
    ∧ (Json.contains config (section_name p) = false → r = Ok () ∧ s' = s)
    ∧ (section_readable config p = true → r = Ok ())
    ∧ (Json.contains config (section_name p) = true →
       section_readable config p = false →
       (∃ e, r = Throw e) ∧ s' = s).

(** A toy file system and parser, to run the loader on: one file that
    does not parse, one with only the local provider, and one whose second
    section lacks its key. *)
Definition example_open (path : string) : option string :=
  if String.eqb path "broken.json" then Some "{"
  else if String.eqb path "ollama.json" then Some "ollama only"
  else if String.eqb path "partial.json" then Some "router without key"
  else None.

Definition example_parse (text : string) : option json :=
  if String.eqb text "ollama only" then
    Some (JObject [("ollama",
                    JObject [("endpoint", JString "http://localhost:11434")])])
  else if String.eqb text "router without key" then
    Some (JObject [("xeno_ai",
                    JObject [("endpoint", JString "https://api.xenolabs.ai");
                             ("api_key", JString "k1")]);
                   ("open_router",
                    JObject [("endpoint", JString "https://openrouter.ai")])])
  else None.

End ConfigFile.

(** ** Standard library pieces used by the utilities

    [std::stoi], [std::to_string] on [int], [std::getline],
    [std::string::find] and [substr], as the C++ standard defines them (C
    locale). *)

Module Std.

Import Stdlib.Strings.Ascii.

Definition char_code (c : Ascii.ascii) : Z := Z.of_N (Ascii.N_of_ascii c).

(** [isspace]: space, and the controls from tab to carriage return. *)
Definition isspace (c : Ascii.ascii) : bool :=
  (char_code c =? 32) || ((9 <=? char_code c) && (char_code c <=? 13)).

Definition isdigit (c : Ascii.ascii) : bool :=
  (48 <=? char_code c) && (char_code c <=? 57).

Definition digit_value (c : Ascii.ascii) : Z := char_code c - 48.

Fixpoint skip_space (s : string) : string :=
  match s with
  | String c s' => if isspace c then skip_space s' else s
  | EmptyString => EmptyString
  end.

(** The value of the leading decimal digits of [s], continuing [acc]. *)
Fixpoint parse_digits (acc : Z) (s : string) : Z :=
  match s with
  | String c s' =>
      if isdigit c then parse_digits (acc * 10 + digit_value c) s' else acc
  | EmptyString => acc
  end.

Definition starts_with_digit (s : string) : bool :=
  match s with
  | String c _ => isdigit c
  | EmptyString => false
  end.

Fixpoint all_space (s : string) : bool :=
  match s with
  | String c s' => isspace c && all_space s'
  | EmptyString => true
  end.

(** [std::stoi(s)] in base 10: leading white space is skipped, one sign is
    accepted, the longest run of digits is converted and what follows is
    ignored; [std::invalid_argument] when there is no digit,
    [std::out_of_range] when the value is not an [int]. *)
Definition stoi (s : string) : exn Z :=
  let s := skip_space s in
  let '(negative, s) :=
    match s with
    | String c s' =>
        if Ascii.eqb c "-" then (true, s')
        else if Ascii.eqb c "+" then (false, s')
        else (false, s)
    | EmptyString => (false, s)
    end in
  if starts_with_digit s then
    let v := parse_digits 0 s in
    let v := if negative : bool then - v else v in
    if (CInt.INT_MIN <=? v) && (v <=? CInt.INT_MAX) then Ok v
    else Throw "stoi: out of range"
  else Throw "stoi: invalid argument".

(** [std::to_string] of an [int]: decimal digits, with a minus sign for a
    negative value. *)
Definition to_string (z : Z) : string := pretty z.

(** The line terminator written by [std::endl] and read by
    [std::getline]. *)
Definition newline : Ascii.ascii := "010"%char.
Definition endl : string := String newline EmptyString.

(** The lines [while (std::getline(file, line))] goes through: [cur] is
    what has been extracted of the current line. A line ends at a newline,
    which is dropped; at the end of the text a non-empty rest is a last
    line, and an extraction of nothing ends the loop. *)
Fixpoint getlines (cur : string) (text : string) : list string :=
  match text with
  | EmptyString => match cur with EmptyString => [] | _ => [cur] end
  | String c text' =>
      if Ascii.eqb c newline then cur :: getlines EmptyString text'
      else getlines (cur +:+ String c EmptyString) text'
  end.

(** [s.find(c)]: the first position of [c], [None] for [npos]. *)
Fixpoint find (c : Ascii.ascii) (s : string) : option nat :=
  match s with
  | EmptyString => None
  | String c' s' => if Ascii.eqb c' c then Some O else S <$> find c s'
  end.

(** [s.substr(pos, n)] and [s.substr(pos)], for [pos <= s.size()]. *)
Definition substr (pos n : nat) (s : string) : string :=
  String.substring pos n s.
Definition substr_from (pos : nat) (s : string) : string :=
  String.substring pos (String.length s - pos) s.

End Std.

(** ** ConfigManager

    The manager owns a [std::map] from keys to values, both strings; the
    disk is a map from paths to the text of the files that can be read. *)

Module ConfigManager.

Import Stdlib.Strings.Ascii.

Record Impl : Type := mkImpl {
  config_data : gmap string string
}.

(** The default-constructed singleton. *)
Definition new : Impl := {| config_data := ∅ |}.

Definition set_entry (key value : string) (c : Impl) : Impl :=
  {| config_data := <[key := value]> (config_data c) |}.

(** The manager together with the files it reads and writes. *)
Record Env : Type := mkEnv {
  self : Impl;
  disk : gmap string string
}.

Definition on_self {A} (m : State Impl A) : State Env A :=
  λ e, let (a, c) := m (self e) in (a, {| self := c; disk := disk e |}).

(** The body of the loop of [loadConfig]: a line with an [=] assigns what
    follows the first [=] to what precedes it; any other line is skipped. *)
Definition load_line (c : Impl) (line : string) : Impl :=
  match Std.find "="%char line with
  | Some pos =>
      let key := Std.substr 0 pos line in
      let value := Std.substr_from (pos + 1) line in
      set_entry key value c
  | None => c
  end.

Definition load_text (text : string) (c : Impl) : Impl :=
  foldl load_line c (Std.getlines EmptyString text).

Definition loadConfig (config_path : string) : State Env bool :=
  λ e, match disk e !! config_path with
       | None => (false, e)
       | Some text =>
           (true, {| self := load_text text (self e); disk := disk e |})
       end.

(** [std::map] iterates in the order of its keys. *)
Definition key_le (p q : string * string) : Prop := String.leb p.1 q.1 = true.

Global Instance key_le_dec p q : Decision (key_le p q).
Proof. unfold key_le. apply _. Defined.

Definition entries (c : Impl) : list (string * string) :=
  merge_sort key_le (map_to_list (config_data c)).

(** [file << key << "=" << value << std::endl]. *)
Definition save_line (kv : string * string) : string :=
  kv.1 +:+ "=" +:+ kv.2 +:+ Std.endl.

Definition save_text (c : Impl) : string :=
  foldr (λ kv text, save_line kv +:+ text) EmptyString (entries c).

Section Files.

(** Whether a file can be opened for writing is decided outside the
    program. A file that has been written can be read back. *)
Variable ofstream_open : string → bool.

Definition saveConfig (config_path : string) : State Env bool :=
  λ e, if ofstream_open config_path then
         (true, {| self := self e;
                   disk := <[config_path := save_text (self e)]> (disk e) |})
       else (false, e).

End Files.

Definition getString (key default_value : string) : State Impl string :=
  c ← get;
  match config_data c !! key with
  | Some value => mret value
  | None => mret default_value
  end.

Definition getInt (key : string) (default_value : Z) : State Impl Z :=
  c ← get;
  match config_data c !! key with
  | Some value =>
      match Std.stoi value with
      | Ok n => mret n
      | Throw _ => mret default_value
      end
  | None => mret default_value
  end.

Definition getBool (key : string) (default_value : bool) : State Impl bool :=
  c ← get;
  match config_data c !! key with
  | Some value => mret (String.eqb value "true" || String.eqb value "1")
  | None => mret default_value
  end.

Definition setString (key value : string) : State Impl () :=
  modify (set_entry key value).

Definition setInt (key : string) (value : Z) : State Impl () :=
  modify (set_entry key (Std.to_string value)).

Definition setBool (key : string) (value : bool) : State Impl () :=
  modify (set_entry key (if value then "true" else "false")).

(** Neither [c] occurs in [s]. *)
Fixpoint free_of (c : Ascii.ascii) (s : string) : bool :=
  match s with
  | EmptyString => true
  | String c' s' => negb (Ascii.eqb c' c) && free_of c s'
  end.

(** The entries a text file can hold: no [=] nor newline in a key, no
    newline in a value. *)
Definition storable (c : Impl) : Prop :=
  ∀ key value, config_data c !! key = Some value →
    free_of "="%char key = true
    ∧ free_of Std.newline key = true
    ∧ free_of Std.newline value = true.

End ConfigManager.

(** ** Logger *)

Module Logger.

Inductive Level : Type := DEBUG | INFO | WARNING | ERROR.

(** The enumerators' values. *)
Definition level_value (l : Level) : Z :=
  match l with
  | DEBUG => 0
  | INFO => 1
  | WARNING => 2
  | ERROR => 3
  end.

Record Impl : Type := mkImpl {
  current_level : Level
}.

(** The default member initialiser. *)
Definition new : Impl := {| current_level := INFO |}.

(** The logger and what has been written to [std::cout]. *)
Record Env : Type := mkEnv {
  self : Impl;
  cout : string
}.

Definition setLevel (level : Level) : State Env () :=
  modify (λ e, {| self := {| current_level := level |}; cout := cout e |}).

Definition level_strings : list string := ["DEBUG"; "INFO"; "WARNING"; "ERROR"].

(** [level_strings[level]]. *)
Definition level_string (level : Level) : string :=
  default EmptyString (level_strings !! Z.to_nat (level_value level)).

Definition log (level : Level) (message : string) : State Env () :=
  e ← get;
  if level_value level >=? level_value (current_level (self e)) then
    modify (λ e, {| self := self e;
                    cout := cout e +:+ "[" +:+ level_string level +:+ "] "
                            +:+ message +:+ Std.endl |})
  else mret ().

Definition debug (message : string) : State Env () := log DEBUG message.
Definition info (message : string) : State Env () := log INFO message.
Definition warning (message : string) : State Env () := log WARNING message.
Definition error (message : string) : State Env () := log ERROR message.

(** A sequence of [log] calls. *)
Fixpoint log_all (messages : list (Level * string)) : State Env () :=
  match messages with
  | [] => mret ()
  | (level, message) :: rest => log level message ;; log_all rest
  end.

(** The line [log] writes for a message. *)
Definition line (m : Level * string) : string :=
  "[" +:+ level_string m.1 +:+ "] " +:+ m.2 +:+ Std.endl.

End Logger.

(** ** Sessions of the integration client *)

Module Session.

(** One call of a per-modality operation. *)
Record Request : Type := mkRequest {
  modality : Modality.t;
  junk : AIIntegration.Indeterminate;
  request : AIIntegration.AIRequest;
  provider : AIIntegration.AIProvider
}.

Definition perform (r : Request)
    : State AIIntegration.Impl AIIntegration.AIResponse :=
  Modality.perform (modality r) (junk r) (request r) (provider r).

(** The calls made one after the other, with their responses. *)
Fixpoint perform_all (calls : list Request)
    : State AIIntegration.Impl (list AIIntegration.AIResponse) :=
  match calls with
  | [] => mret []
  | r :: rest =>
      response ← perform r;
      responses ← perform_all rest;
      mret (response :: responses)
  end.

(** The credits the successful responses report. *)
Definition reported (responses : list AIIntegration.AIResponse) : Z :=
  Ledger.sum
    (AIIntegration.credits_used
       <$> filter (λ r, AIIntegration.success r = true) responses).

Definition successes (responses : list AIIntegration.AIResponse) : nat :=
  length (filter (λ r, AIIntegration.success r = true) responses).

(** A sequence of [configure] calls. *)
Fixpoint configure_all
    (settings : list (AIIntegration.AIProvider * AIIntegration.APIConfig))
    (s : AIIntegration.Impl) : AIIntegration.Impl :=
  match settings with
  | [] => s
  | (p, c) :: rest => configure_all rest (AIIntegration.configure p c s).2
  end.

(** The configuration [loadConfigFromFile] builds from a section. *)
Definition section_config (config : json) (p : AIIntegration.AIProvider)
    : option AIIntegration.APIConfig :=
  match p with
  | AIIntegration.Ollama =>
      match AIIntegration.string_field config "ollama" "endpoint" with
      | Ok e => Some (AIIntegration.mkAPIConfig e "" ∅)
      | Throw _ => None
      end
  | _ =>
      match AIIntegration.string_field config (ConfigFile.section_name p) "endpoint",
            AIIntegration.string_field config (ConfigFile.section_name p) "api_key"
      with
      | Ok e, Ok k =>
          Some (AIIntegration.mkAPIConfig e k
                  {[ "Authorization" := "Bearer " +:+ k ]})
      | _, _ => None
      end
  end.

(** The [configure] call a section gives rise to, if any. *)
Definition section_update (config : json) (p : AIIntegration.AIProvider)
    : list (AIIntegration.AIProvider * AIIntegration.APIConfig) :=
  if Json.contains config (ConfigFile.section_name p) then
    match section_config config p with
    | Some c => [(p, c)]
    | None => []
    end
  else [].

(** The section is present and a field of it cannot be read. *)
Definition section_fails (config : json) (p : AIIntegration.AIProvider)
    : bool :=
  Json.contains config (ConfigFile.section_name p)
  && negb (ConfigFile.section_readable config p).

(** The [configure] calls [loadConfigFromFile] makes on a document: those
    of the sections in the order of the source, up to the first section
    that fails. *)
Definition file_updates (config : json)
    : list (AIIntegration.AIProvider * AIIntegration.APIConfig) :=
  if section_fails config AIIntegration.XenoCloud then []
  else section_update config AIIntegration.XenoCloud
       ++ (if section_fails config AIIntegration.OpenRouter then []
           else section_update config AIIntegration.OpenRouter
                ++ (if section_fails config AIIntegration.Ollama then []
                    else section_update config AIIntegration.Ollama)).

(** A toy file system and parser with a document that is not an object
    and one with all three sections. *)
Definition example_open (path : string) : option string :=
  if String.eqb path "list.json" then Some "[]"
  else if String.eqb path "full.json" then Some "three sections"
  else None.

Definition example_parse (text : string) : option json :=
  if String.eqb text "[]" then Some (JArray [])
  else if String.eqb text "three sections" then
    Some (JObject
            [("ollama", JObject [("endpoint", JString "http://localhost:11434")]);
             ("xeno_ai", JObject [("endpoint", JString "https://api.xenolabs.ai");
                                  ("api_key", JString "k1")]);
             ("open_router", JObject [("api_key", JString "k2");
                                      ("endpoint", JString "https://openrouter.ai")])])
  else None.

End Session.

(** ** Shape of the transaction log *)

Module LogShape.

(** The entry at position [i] of the log carries the id made from
    [i + 1]. *)
Definition numbered (w : CreditWallet.Impl) : Prop :=
  ∀ i t, CreditWallet.transactions w !! i = Some t →
         CreditWallet.id t
         = "tx_" +:+ CInt.to_string (CInt.to_size_t (Z.of_nat i + 1)).

End LogShape.

(** * Properties *)

(** ** Arithmetic of [int] *)

Section CIntFacts.

Lemma wrap_in_range z : CInt.in_range (CInt.wrap z).
Proof.
  unfold CInt.in_range, CInt.wrap, CInt.INT_MIN, CInt.INT_MAX.
  pose proof (Z.mod_pos_bound (z + 2 ^ 31) (2 ^ 32)). lia.
Qed.

Lemma wrap_id z : CInt.in_range z → CInt.wrap z = z.
Proof.
  unfold CInt.in_range, CInt.wrap, CInt.INT_MIN, CInt.INT_MAX. intros Hz.
  rewrite Z.mod_small; lia.
Qed.

(** [wrap z] and [z] differ by a multiple of [2^32]. *)
Lemma wrap_congruent z : ∃ q, CInt.wrap z = z + 2 ^ 32 * q.
Proof.
  exists (- ((z + 2 ^ 31) / 2 ^ 32)). unfold CInt.wrap.
  rewrite Z.mod_eq by lia. lia.
Qed.

Lemma wrap_shift z q : CInt.wrap (z + 2 ^ 32 * q) = CInt.wrap z.
Proof.
  unfold CInt.wrap. f_equal.
  replace (z + 2 ^ 32 * q + 2 ^ 31) with (z + 2 ^ 31 + q * 2 ^ 32) by lia.
  apply Z_mod_plus_full.
Qed.

Lemma wrap_add_wrap_l a b : CInt.wrap (CInt.wrap a + b) = CInt.wrap (a + b).
Proof.
  destruct (wrap_congruent a) as [q ->].
  replace (a + 2 ^ 32 * q + b) with (a + b + 2 ^ 32 * q) by lia.
  apply wrap_shift.
Qed.

Lemma wrap_add_wrap_r a b : CInt.wrap (a + CInt.wrap b) = CInt.wrap (a + b).
Proof. rewrite Z.add_comm, wrap_add_wrap_l. f_equal. lia. Qed.

(** Going through [size_t] does not change the [int] that comes out. *)
Lemma wrap_to_size_t z : CInt.wrap (CInt.to_size_t z) = CInt.wrap z.
Proof.
  unfold CInt.to_size_t. rewrite Z.mod_eq by lia.
  replace (z - 2 ^ 64 * (z / 2 ^ 64))
    with (z + 2 ^ 32 * (- (2 ^ 32 * (z / 2 ^ 64)))) by lia.
  apply wrap_shift.
Qed.

Lemma to_size_t_sub_r a b :
  CInt.to_size_t (a - CInt.to_size_t b) = CInt.to_size_t (a - b).
Proof. unfold CInt.to_size_t. apply Zminus_mod_idemp_r. Qed.

Lemma in_rangeb_spec z : Ledger.in_rangeb z = true ↔ CInt.in_range z.
Proof. unfold Ledger.in_rangeb, CInt.in_range. lia. Qed.

Lemma neg_nonzero a : CInt.in_range a → a ≠ 0 → CInt.neg a ≠ 0.
Proof.
  unfold CInt.neg. intros Ha Hne.
  destruct (wrap_congruent (- a)) as [q Hq]. rewrite Hq.
  unfold CInt.in_range, CInt.INT_MIN, CInt.INT_MAX in Ha. lia.
Qed.

End CIntFacts.

(** ** One call on a wallet *)

Section WalletCalls.

Implicit Types (w : CreditWallet.Impl) (amount : Z) (op token : string).

Lemma authenticate_eq token w :
  CreditWallet.authenticate token w
  = (negb (String.eqb token ""), CreditWallet.set_user_token token w).
Proof. reflexivity. Qed.

Lemma getBalance_eq w :
  CreditWallet.getBalance w = (CreditWallet.cached_balance w, w).
Proof. reflexivity. Qed.

Lemma deductCredits_enough amount op w :
  amount <= CreditWallet.cached_balance w →
  CreditWallet.deductCredits amount op w
  = (true,
     CreditWallet.push_back_transaction (Ledger.deduction_entry amount op w)
       (CreditWallet.set_cached_balance
          (CInt.sub (CreditWallet.cached_balance w) amount) w)).
Proof.
  intros Hle. unfold CreditWallet.deductCredits, mbind, State_bind, get. simpl.
  destruct (Z.geb_spec (CreditWallet.cached_balance w) amount); [done | lia].
Qed.

Lemma deductCredits_short amount op w :
  CreditWallet.cached_balance w < amount →
  CreditWallet.deductCredits amount op w = (false, w).
Proof.
  intros Hlt. unfold CreditWallet.deductCredits, mbind, State_bind, get. simpl.
  destruct (Z.geb_spec (CreditWallet.cached_balance w) amount); [lia | done].
Qed.

Lemma addCredits_eq amount w :
  CreditWallet.addCredits amount w
  = (true,
     CreditWallet.push_back_transaction (Ledger.purchase_entry amount w)
       (CreditWallet.set_cached_balance
          (CInt.add (CreditWallet.cached_balance w) amount) w)).
Proof. reflexivity. Qed.

End WalletCalls.

(** ** Deduction, authentication, validation *)

(** C2. [deductCredits(amount, operation)] with [balance >= amount] returns
    true, takes [amount] off the balance and appends exactly one transaction
    whose delta is [-amount] and whose success flag is set; with
    [balance < amount] it returns false and leaves the wallet as it was.
    The subtraction and the negation are those of [int]; they are the
    mathematical ones whenever their results are values of type [int]. *)
Theorem deductCredits_checks_balance
    (amount : Z) (op : string) (w : CreditWallet.Impl) :
  let balance := CreditWallet.cached_balance w in
  let '(r, w') := CreditWallet.deductCredits amount op w in
  (balance >= amount →
     r = true
     ∧ CreditWallet.cached_balance w' = CInt.sub balance amount
     ∧ (CInt.in_range (balance - amount) →
        CreditWallet.cached_balance w' = balance - amount)
     ∧ (∃ t, CreditWallet.transactions w' = CreditWallet.transactions w ++ [t]
             ∧ CreditWallet.operation t = op
             ∧ CreditWallet.credits t = CInt.neg amount
             ∧ (CInt.in_range (- amount) → CreditWallet.credits t = - amount)
             ∧ CreditWallet.success t = true)
     ∧ CreditWallet.user_token w' = CreditWallet.user_token w)
  ∧ (¬ balance >= amount → r = false ∧ w' = w).
Proof.
  intros balance. subst balance.
  destruct (Z_lt_le_dec (CreditWallet.cached_balance w) amount) as [Hlt | Hle].
  - rewrite deductCredits_short by done. split; [lia | done].
  - rewrite deductCredits_enough by done. split; [intros _ | lia].
    cbn [CreditWallet.cached_balance CreditWallet.transactions
         CreditWallet.user_token CreditWallet.push_back_transaction
         CreditWallet.set_cached_balance].
    repeat split.
    + intros Hr. unfold CInt.sub. by apply wrap_id.
    + eexists. repeat split. intros Hr. simpl. unfold CInt.neg. by apply wrap_id.
Qed.

Lemma deductCredits_checks_balance_witness :
  (let '(r, w') := CreditWallet.deductCredits 5 "x" CreditWallet.new in
   r = true ∧ CreditWallet.cached_balance w' = 95
   ∧ length (CreditWallet.transactions w') = 1%nat)
  ∧ (let '(r, w') := CreditWallet.deductCredits 1000 "y" CreditWallet.new in
     r = false ∧ w' = CreditWallet.new).
Proof.
  split.
  - pose proof (deductCredits_checks_balance 5 "x" CreditWallet.new) as H.
    destruct (CreditWallet.deductCredits 5 "x" CreditWallet.new) as [r w'].
    destruct H as [H _].
    destruct H as (Hr & _ & Hb & (t & Ht & _) & _); [by vm_compute |].
    split; [exact Hr |]. split.
    + apply Hb. vm_compute. split; discriminate.
    + rewrite Ht. reflexivity.
  - pose proof (deductCredits_checks_balance 1000 "y" CreditWallet.new) as H.
    destruct (CreditWallet.deductCredits 1000 "y" CreditWallet.new) as [r w'].
    destruct H as [_ H]. apply H. vm_compute. by intros [].
Defined.

(** [authenticate] stores the token whatever it is, and answers whether the
    token is non-empty. *)
Lemma authenticate_stores_token (token : string) (w : CreditWallet.Impl) :
  CreditWallet.user_token (CreditWallet.authenticate token w).2 = token
  ∧ ((CreditWallet.authenticate token w).1 = true ↔ token ≠ "").
Proof.
  rewrite authenticate_eq. simpl. split; [done |].
  destruct (String.eqb_spec token ""); simpl; split; congruence.
Qed.

(** C4. The code at the empty token: [authenticate("")] stores the token
    and returns false, where the claim (and the unit test
    [CreditWalletTest.Authentication]) expect true. *)
Theorem authenticate_empty_token_returns_false (w : CreditWallet.Impl) :
  CreditWallet.authenticate "" w = (false, CreditWallet.set_user_token "" w).
Proof. reflexivity. Qed.

(** C5. [validateCredits(n)] is true exactly when [n <= getCreditBalance()],
    and the integration object (provider map, balance and transaction log)
    is the same after the call. *)
Theorem validateCredits_read_only (n : Z) (s : AIIntegration.Impl) :
  ((AIIntegration.validateCredits n s).1 = true
     ↔ n <= (AIIntegration.getCreditBalance s).1)
  ∧ (AIIntegration.validateCredits n s).2 = s.
Proof.
  destruct s as [c w]. cbn. split; [apply Z.geb_le | done].
Qed.

(** ** The ledger along a run *)

Section Runs.

Import Ledger.
Implicit Types (w : CreditWallet.Impl) (c : WalletCall) (cs : list WalletCall).

Lemma sum_app (l1 l2 : list Z) : sum (l1 ++ l2) = sum l1 + sum l2.
Proof. induction l1 as [| x l1 IH]; simpl; [done | rewrite IH; lia]. Qed.

Lemma log_deltas_push t w b :
  log_deltas (CreditWallet.push_back_transaction t
                (CreditWallet.set_cached_balance b w))
  = log_deltas w ++ [CreditWallet.credits t].
Proof. unfold log_deltas. simpl. by rewrite fmap_app. Qed.

(** What one call does to the balance, in [int] arithmetic. *)
Lemma call_balance c w :
  CInt.in_range (CreditWallet.cached_balance w) →
  CreditWallet.cached_balance (call c w)
  = CInt.wrap (CreditWallet.cached_balance w + delta c w).
Proof.
  intros Hr. destruct c as [token | | amount op | amount | limit]; simpl;
    try (by rewrite Z.add_0_r, wrap_id).
  - destruct (Z_lt_le_dec (CreditWallet.cached_balance w) amount).
    + rewrite deductCredits_short by done. simpl.
      by rewrite Z.add_0_r, wrap_id.
    + rewrite deductCredits_enough by done. simpl.
      unfold CInt.sub, CInt.neg. by rewrite wrap_add_wrap_r.
  - done.
Qed.

(** The same without reduction, when the call does not overflow. *)
Lemma call_balance_exact c w :
  CInt.in_range (CreditWallet.cached_balance w) →
  call_exact c w = true →
  CreditWallet.cached_balance (call c w)
  = CreditWallet.cached_balance w + delta c w.
Proof.
  intros Hr Hex. rewrite call_balance by done.
  destruct c as [token | | amount op | amount | limit]; simpl in *;
    try (by rewrite Z.add_0_r, wrap_id).
  - destruct (Z_lt_le_dec (CreditWallet.cached_balance w) amount).
    + rewrite deductCredits_short by done. simpl.
      by rewrite Z.add_0_r, wrap_id.
    + rewrite deductCredits_enough by done. simpl.
      destruct (Z.geb_spec (CreditWallet.cached_balance w) amount); [| lia].
      apply andb_true_iff in Hex as [H1 H2].
      apply in_rangeb_spec in H1, H2.
      unfold CInt.neg. rewrite (wrap_id (- amount)) by done.
      apply wrap_id. by replace (CreditWallet.cached_balance w + - amount)
        with (CreditWallet.cached_balance w - amount) by lia.
  - apply wrap_id. by apply in_rangeb_spec.
Qed.

Lemma call_in_range c w :
  CInt.in_range (CreditWallet.cached_balance w) →
  CInt.in_range (CreditWallet.cached_balance (call c w)).
Proof. intros Hr. rewrite call_balance by done. apply wrap_in_range. Qed.

(** What one call does to the log: an applied call appends one entry,
    which carries the call's delta; any other call appends nothing. *)
Lemma call_log c w :
  CreditWallet.transactions (call c w)
  = CreditWallet.transactions w
    ++ (if applied c w then
          match c with
          | DeductCredits amount op => [deduction_entry amount op w]
          | AddCredits amount => [purchase_entry amount w]
          | _ => []
          end
        else []).
Proof.
  destruct c as [token | | amount op | amount | limit]; simpl;
    rewrite ?app_nil_r; try done.
  destruct (Z_lt_le_dec (CreditWallet.cached_balance w) amount).
  - rewrite deductCredits_short by done. simpl. by rewrite app_nil_r.
  - by rewrite deductCredits_enough by done.
Qed.

Lemma call_log_deltas c w :
  sum (log_deltas (call c w)) = sum (log_deltas w) + delta c w.
Proof.
  unfold log_deltas. rewrite call_log, fmap_app, sum_app. f_equal.
  destruct c as [token | | amount op | amount | limit]; simpl; try done.
  - by destruct (CreditWallet.deductCredits amount op w).1; simpl; lia.
  - lia.
Qed.

Lemma call_log_length c w :
  length (CreditWallet.transactions (call c w))
  = (length (CreditWallet.transactions w) + (if applied c w then 1 else 0))%nat.
Proof.
  rewrite call_log, length_app. f_equal.
  destruct c as [token | | amount op | amount | limit]; simpl; try done.
  by destruct (CreditWallet.deductCredits amount op w).1.
Qed.

Lemma run_ledger cs w :
  CInt.in_range (CreditWallet.cached_balance w) →
  CreditWallet.cached_balance (run cs w)
  = CInt.wrap (CreditWallet.cached_balance w + sum (deltas cs w))
  ∧ sum (log_deltas (run cs w)) = sum (log_deltas w) + sum (deltas cs w)
  ∧ length (CreditWallet.transactions (run cs w))
    = (length (CreditWallet.transactions w) + applied_count cs w)%nat
  ∧ (no_overflow cs w = true →
     CreditWallet.cached_balance (run cs w)
     = CreditWallet.cached_balance w + sum (deltas cs w)).
Proof.
  revert w. induction cs as [| c cs IH]; intros w Hr; simpl.
  - rewrite Z.add_0_r, wrap_id by done. repeat split; lia.
  - destruct (IH (call c w) (call_in_range c w Hr)) as (Hb & Hl & Hn & Hx).
    repeat split.
    + rewrite Hb, call_balance by done. rewrite wrap_add_wrap_l. f_equal. lia.
    + rewrite Hl, call_log_deltas. lia.
    + rewrite Hn, call_log_length. lia.
    + intros [Hc Hcs]%andb_true_iff.
      rewrite Hx, call_balance_exact by done. lia.
Qed.

Lemma run_nonneg cs w :
  0 <= CreditWallet.cached_balance w <= CInt.INT_MAX →
  keeps_nonneg cs w = true →
  0 <= CreditWallet.cached_balance (run cs w) <= CInt.INT_MAX.
Proof.
  revert w. induction cs as [| c cs IH]; intros w Hw; simpl; [done |].
  intros [Hc Hcs]%andb_true_iff. apply IH; [| done]. clear IH Hcs.
  destruct c as [token | | amount op | amount | limit];
    cbn [call call_keeps_nonneg] in *; try done.
  - destruct (Z_lt_le_dec (CreditWallet.cached_balance w) amount).
    + by rewrite deductCredits_short.
    + rewrite deductCredits_enough by done.
      destruct (Z.geb_spec (CreditWallet.cached_balance w) amount); [| lia].
      apply Z.leb_le in Hc. cbn. unfold CInt.sub. rewrite wrap_id; [lia |].
      unfold CInt.in_range, CInt.INT_MIN, CInt.INT_MAX in *. lia.
  - apply andb_true_iff in Hc as [H1%Z.leb_le H2%Z.leb_le].
    rewrite addCredits_eq. cbn. unfold CInt.add. rewrite wrap_id; [lia |].
    unfold CInt.in_range, CInt.INT_MIN, CInt.INT_MAX in *. lia.
Qed.

End Runs.

(** C1. After any sequence of calls on a new wallet, [getBalance()] is the
    seed balance plus the sum of the deltas the calls applied, a deduction
    that returned false counting for zero and appending nothing; the deltas
    in the transaction log have the same sum. The addition is that of
    [int]; it is the mathematical one on every run on which no call
    overflows. *)
Theorem balance_is_seed_plus_deltas (cs : list Ledger.WalletCall) :
  let w := Ledger.run cs CreditWallet.new in
  let balance := (CreditWallet.getBalance w).1 in
  let applied_deltas := Ledger.deltas cs CreditWallet.new in
  balance = CInt.wrap (CreditWallet.seed_balance + Ledger.sum applied_deltas)
  ∧ Ledger.sum (Ledger.log_deltas w) = Ledger.sum applied_deltas
  ∧ length (CreditWallet.transactions w)
    = Ledger.applied_count cs CreditWallet.new
  ∧ (Ledger.no_overflow cs CreditWallet.new = true →
     balance = CreditWallet.seed_balance + Ledger.sum applied_deltas
     ∧ balance = CreditWallet.seed_balance + Ledger.sum (Ledger.log_deltas w)).
Proof.
  intros w balance applied_deltas.
  assert (CInt.in_range (CreditWallet.cached_balance CreditWallet.new)) as Hr
    by (vm_compute; split; discriminate).
  destruct (run_ledger cs CreditWallet.new Hr) as (Hb & Hl & Hn & Hx).
  change (Ledger.sum (Ledger.log_deltas CreditWallet.new)) with 0 in Hl.
  change (length (CreditWallet.transactions CreditWallet.new)) with O in Hn.
  repeat split; try done.
  - by apply Hx.
  - subst w balance applied_deltas. rewrite Hl. by apply Hx.
Qed.

Lemma balance_is_seed_plus_deltas_witness :
  (CreditWallet.getBalance
     (Ledger.run [Ledger.DeductCredits 5 "x"; Ledger.AddCredits 10;
                  Ledger.DeductCredits 1000 "y"] CreditWallet.new)).1
  = 100 + (-5 + (10 + (0 + 0))).
Proof.
  destruct (balance_is_seed_plus_deltas
              [Ledger.DeductCredits 5 "x"; Ledger.AddCredits 10;
               Ledger.DeductCredits 1000 "y"]) as (_ & _ & _ & H).
  destruct H as [H _]; [by vm_compute | exact H].
Defined.

(** C8 as stated fails: a top-up by a negative amount takes the balance of a
    new wallet below zero. *)
Lemma addCredits_negative_amount_below_zero :
  0 <= CreditWallet.cached_balance CreditWallet.new
  ∧ CreditWallet.cached_balance (CreditWallet.addCredits (-200) CreditWallet.new).2
    = -100.
Proof. by vm_compute. Qed.

(** A deduction of a non-negative amount from a non-negative balance
    never overflows. *)
Lemma deduct_nonneg_amount_keeps_nonneg
    (amount : Z) (op : string) (w : CreditWallet.Impl) :
  0 <= amount →
  0 <= CreditWallet.cached_balance w <= CInt.INT_MAX →
  Ledger.call_keeps_nonneg (Ledger.DeductCredits amount op) w = true.
Proof.
  intros Ha Hw. simpl. destruct (_ >=? _); [| done]. apply Z.leb_le. lia.
Qed.

(** C8, amended. From the seed, the balance stays a non-negative [int]
    along every sequence of calls in which each [addCredits(amount)]
    has [0 <= balance + amount <= INT_MAX] and each successful
    [deductCredits(amount)] has [balance - amount <= INT_MAX];
    [authenticate], [getBalance], [getTransactionHistory] and a failed
    deduction are free. *)
Theorem balance_nonneg_along_runs (cs : list Ledger.WalletCall) :
  Ledger.keeps_nonneg cs CreditWallet.new = true →
  0 <= (CreditWallet.getBalance (Ledger.run cs CreditWallet.new)).1
    <= CInt.INT_MAX.
Proof.
  intros Hcs. rewrite getBalance_eq. cbn [fst].
  apply run_nonneg; [by vm_compute | done].
Qed.

Lemma balance_nonneg_along_runs_witness :
  0 <= (CreditWallet.getBalance
          (Ledger.run [Ledger.Authenticate ""; Ledger.DeductCredits 100 "x";
                       Ledger.GetBalance; Ledger.DeductCredits 1 "y";
                       Ledger.AddCredits 7; Ledger.GetTransactionHistory (-3);
                       Ledger.DeductCredits (-4) "z"]
             CreditWallet.new)).1
    <= CInt.INT_MAX.
Proof. apply balance_nonneg_along_runs. by vm_compute. Defined.

(** ** The transaction history *)

Section History.

Import Ledger.
Implicit Types (w : CreditWallet.Impl) (v : list CreditWallet.Transaction).

Lemma vector_at_lookup v i :
  0 <= i → CreditWallet.vector_at v i = v !! Z.to_nat i.
Proof.
  revert i. induction v as [| t v IH]; intros i Hi; simpl; [done |].
  destruct (Z.eqb_spec i 0) as [-> | Hne]; [done |].
  rewrite IH by lia. replace (Z.to_nat i) with (S (Z.to_nat (i - 1))) by lia.
  done.
Qed.

Lemma vector_at_beyond v i :
  Z.of_nat (length v) <= i → CreditWallet.vector_at v i = None.
Proof.
  intros Hi. rewrite vector_at_lookup by lia. apply lookup_ge_None. lia.
Qed.

Lemma size_nonneg w : 0 <= CreditWallet.size w.
Proof. unfold CreditWallet.size. lia. Qed.

Lemma wrap_size w :
  CreditWallet.size w <= CInt.INT_MAX →
  CInt.wrap (CreditWallet.size w) = CreditWallet.size w.
Proof.
  intros Hs. apply wrap_id. pose proof (size_nonneg w).
  unfold CInt.in_range, CInt.INT_MIN. lia.
Qed.

(** A negative loop variable indexes far beyond the vector. *)
Lemma at_index_negative w i :
  CreditWallet.size w <= CInt.INT_MAX →
  CInt.INT_MIN <= i < 0 →
  CreditWallet.at_index w i = None.
Proof.
  unfold CreditWallet.at_index, CreditWallet.size, CInt.to_size_t,
    CInt.INT_MAX, CInt.INT_MIN.
  intros Hs Hi. apply vector_at_beyond.
  replace i with (i + 2 ^ 64 + (-1) * 2 ^ 64) by lia.
  rewrite Z_mod_plus_full, Z.mod_small; lia.
Qed.

Lemma at_index_inside w i :
  0 <= i <= CInt.INT_MAX →
  CreditWallet.at_index w i = CreditWallet.transactions w !! Z.to_nat i.
Proof.
  intros Hi. unfold CreditWallet.at_index, CInt.to_size_t.
  unfold CInt.INT_MAX in Hi. rewrite Z.mod_small by lia.
  apply vector_at_lookup. lia.
Qed.

(** The loop from a non-negative [i]: it copies the log from [i] on. *)
Lemma history_loop_from fuel w i result :
  CreditWallet.size w <= CInt.INT_MAX →
  0 <= i →
  (Z.to_nat (CreditWallet.size w - i) ≤ fuel)%nat →
  CreditWallet.history_loop fuel w i result
  = Done (result ++ drop (Z.to_nat i) (CreditWallet.transactions w)).
Proof.
  intros Hs. revert i result.
  induction fuel as [| fuel IH]; intros i result Hi Hfuel;
    cbn [CreditWallet.history_loop]; rewrite wrap_size by done;
    destruct (Z.ltb_spec i (CreditWallet.size w)) as [Hlt | Hge];
    try lia.
  - rewrite drop_ge, app_nil_r; [done |]. unfold CreditWallet.size in Hge. lia.
  - rewrite at_index_inside by lia.
    destruct (lookup_lt_is_Some_2 (CreditWallet.transactions w) (Z.to_nat i))
      as [t Ht]; [unfold CreditWallet.size in Hlt; lia |].
    rewrite Ht. unfold CInt.add. rewrite wrap_id.
    + rewrite IH by lia. rewrite (drop_S _ _ _ Ht), <- app_assoc.
      by replace (Z.to_nat (i + 1)) with (S (Z.to_nat i)) by lia.
    + unfold CInt.in_range, CInt.INT_MIN, CInt.INT_MAX in *. lia.
  - rewrite drop_ge, app_nil_r; [done |]. unfold CreditWallet.size in Hge. lia.
Qed.

Lemma history_start_eq w count :
  CreditWallet.history_start w count
  = CInt.wrap (CreditWallet.size w - count).
Proof.
  unfold CreditWallet.history_start.
  by rewrite to_size_t_sub_r, wrap_to_size_t.
Qed.

(** What [getTransactionHistory] does for every limit, on a log of fewer
    than [2^31] entries: the loop starts at [size - count] reduced to
    [int]; from a negative start the first access is out of bounds,
    from any other start the rest of the log is copied. In particular the
    loop bound of the model is never exhausted. *)
Lemma getTransactionHistory_fuel limit w :
  CreditWallet.size w <= CInt.INT_MAX →
  let start :=
    CInt.wrap (CreditWallet.size w - Z.min limit (CreditWallet.size w)) in
  CreditWallet.getTransactionHistory limit w
  = if start <? 0 then Undefined
    else Done (drop (Z.to_nat start) (CreditWallet.transactions w)).
Proof.
  intros Hs start. unfold CreditWallet.getTransactionHistory.
  rewrite history_start_eq, wrap_size by done. fold start.
  pose proof (wrap_in_range
    (CreditWallet.size w - Z.min limit (CreditWallet.size w))) as Hr.
  fold start in Hr. destruct (Z.ltb_spec start 0) as [Hneg | Hpos].
  - cbn [CreditWallet.history_loop]. rewrite wrap_size by done.
    pose proof (size_nonneg w).
    destruct (Z.ltb_spec start (CreditWallet.size w)); [| lia].
    rewrite at_index_negative; [done | done |].
    unfold CInt.in_range in Hr. lia.
  - rewrite history_loop_from; [done | done | done |].
    unfold CreditWallet.size. lia.
Qed.

(** Entries of the log of a run: whatever holds of each entry a call of
    the run can append holds of the whole log. *)
Lemma run_log_Forall (P : CreditWallet.Transaction → Prop)
    (Q : WalletCall → Prop) cs w :
  (∀ amount op w', Q (DeductCredits amount op) →
                   P (deduction_entry amount op w')) →
  (∀ amount w', Q (AddCredits amount) → P (purchase_entry amount w')) →
  Forall Q cs →
  Forall P (CreditWallet.transactions w) →
  Forall P (CreditWallet.transactions (run cs w)).
Proof.
  intros Hd Ha Hcs. revert w.
  induction Hcs as [| c cs Hc Hcs IH]; intros w Hw; simpl; [done |].
  apply IH. rewrite call_log. apply Forall_app. split; [done |].
  destruct (applied c w); [| done].
  destruct c; try done; apply Forall_singleton; auto.
Qed.

Lemma forallb_Forall_true {A} (f : A → bool) (l : list A) :
  forallb f l = true → Forall (λ x, f x = true) l.
Proof.
  induction l as [| x l IH]; simpl; [done |].
  intros [Hx Hl]%andb_true_iff. constructor; auto.
Qed.

End History.

(** C6 as stated fails: a deduction of amount 0 with an empty label is
    accepted and logged, so the history holds an entry with an empty
    operation label and a zero delta; and for a negative limit the history
    is empty, which is not [min(k, total)] entries. *)
Lemma getTransactionHistory_zero_delta_empty_label :
  let w := Ledger.run [Ledger.DeductCredits 0 ""] CreditWallet.new in
  CreditWallet.getTransactionHistory 1 w
  = Done [CreditWallet.mkTransaction "tx_1" "" 0 "2024-01-01T00:00:00Z" true]
  ∧ CreditWallet.getTransactionHistory (-1) w = Done []
  ∧ Z.of_nat (length (@nil CreditWallet.Transaction))
    ≠ Z.min (-1) (CreditWallet.size w).
Proof. by vm_compute. Qed.

(** C6, amended. On the wallet left by any sequence of calls on a new
    wallet, with fewer than [2^31] logged entries: for [k >= 0],
    [getTransactionHistory(k)] returns exactly [min(k, total)] entries, the
    last ones of the log in the order of the log (most recent last), each
    with a non-empty id; each has a non-empty operation label when every
    deduction of the run was given one, and a non-zero delta when no amount
    of the run was zero. For [k < 0] with [total - k <= INT_MAX] it returns
    no entry. *)
Theorem getTransactionHistory_recent_entries
    (cs : list Ledger.WalletCall) (k : Z) :
  let w := Ledger.run cs CreditWallet.new in
  let total := CreditWallet.size w in
  total <= CInt.INT_MAX →
  (0 <= k →
   ∃ r, CreditWallet.getTransactionHistory k w = Done r
        ∧ Z.of_nat (length r) = Z.min k total
        ∧ r `suffix_of` CreditWallet.transactions w
        ∧ Forall (λ t, CreditWallet.id t ≠ "") r
        ∧ (forallb Ledger.labelled cs = true →
           Forall (λ t, CreditWallet.operation t ≠ "") r)
        ∧ (forallb Ledger.nonzero_amount cs = true →
           Forall (λ t, CreditWallet.credits t ≠ 0) r))
  ∧ (k < 0 → total - k <= CInt.INT_MAX →
     CreditWallet.getTransactionHistory k w = Done []).
Proof.
  intros w total Htotal. pose proof (size_nonneg w) as H0. fold total in H0.
  rewrite getTransactionHistory_fuel by done. fold total. split.
  - intros Hk.
    assert (CInt.wrap (total - Z.min k total) = total - Z.min k total) as ->.
    { apply wrap_id. unfold CInt.in_range, CInt.INT_MIN, CInt.INT_MAX in *. lia. }
    destruct (Z.ltb_spec (total - Z.min k total) 0); [lia |].
    eexists. split; [done |].
    assert (∀ P, Forall P (CreditWallet.transactions w) →
                 Forall P (drop (Z.to_nat (total - Z.min k total))
                             (CreditWallet.transactions w))) as Hdrop
      by (intros P HP; by apply Forall_drop).
    repeat split.
    + rewrite length_drop. unfold total, CreditWallet.size in *. lia.
    + apply suffix_drop.
    + apply Hdrop, (run_log_Forall _ (λ _, True)); try done.
      by apply Forall_true.
    + intros Hl. apply Hdrop, (run_log_Forall _ (λ c, Ledger.labelled c = true));
        try done.
      * intros amount op w' Hop. simpl in *.
        destruct (String.eqb_spec op ""); [done | done].
      * by apply forallb_Forall_true.
    + intros Hl. apply Hdrop,
        (run_log_Forall _ (λ c, Ledger.nonzero_amount c = true)); try done.
      * intros amount op w' [Hr Hne]%andb_true_iff. simpl.
        apply neg_nonzero; [by apply in_rangeb_spec |].
        by destruct (Z.eqb_spec amount 0).
      * intros amount w' [Hr Hne]%andb_true_iff. simpl.
        by destruct (Z.eqb_spec amount 0).
      * by apply forallb_Forall_true.
  - intros Hk Hmax.
    assert (CInt.wrap (total - Z.min k total) = total - k) as ->.
    { rewrite Z.min_l by lia. apply wrap_id.
      unfold CInt.in_range, CInt.INT_MIN, CInt.INT_MAX in *. lia. }
    destruct (Z.ltb_spec (total - k) 0); [lia |].
    rewrite drop_ge; [done |]. unfold total, CreditWallet.size in *. lia.
Qed.

Lemma getTransactionHistory_recent_entries_witness :
  let w := Ledger.run [Ledger.DeductCredits 5 "x"; Ledger.AddCredits 10;
                       Ledger.DeductCredits 1000 "y"] CreditWallet.new in
  (∃ r, CreditWallet.getTransactionHistory 1 w = Done r
        ∧ Z.of_nat (length r) = 1
        ∧ Forall (λ t, CreditWallet.operation t ≠ "") r
        ∧ Forall (λ t, CreditWallet.credits t ≠ 0) r)
  ∧ CreditWallet.getTransactionHistory (-2) w = Done [].
Proof.
  intros w. split.
  - destruct (getTransactionHistory_recent_entries
                [Ledger.DeductCredits 5 "x"; Ledger.AddCredits 10;
                 Ledger.DeductCredits 1000 "y"] 1) as [H _];
      [by vm_compute |].
    destruct H as (r & Hr & Hlen & _ & _ & Hop & Hcr); [lia |].
    exists r. split; [exact Hr |]. split; [exact Hlen |].
    split; [apply Hop | apply Hcr]; reflexivity.
  - destruct (getTransactionHistory_recent_entries
                [Ledger.DeductCredits 5 "x"; Ledger.AddCredits 10;
                 Ledger.DeductCredits 1000 "y"] (-2)) as [_ H];
      [by vm_compute |].
    apply H; [lia | by vm_compute].
Defined.

(** ** The integration client *)

Section Integration.

Import AIIntegration.
Implicit Types (s : Impl) (u : Indeterminate) (request : AIRequest)
  (provider : AIProvider) (m : Modality.t).

Lemma deductCredits_wallet amount s :
  AIIntegration.deductCredits amount s
  = ((CreditWallet.deductCredits amount "api_call" (wallet s)).1,
     {| configs := configs s;
        wallet := (CreditWallet.deductCredits amount "api_call" (wallet s)).2 |}).
Proof.
  unfold AIIntegration.deductCredits, on_wallet.
  by destruct (CreditWallet.deductCredits amount "api_call" (wallet s)).
Qed.

(** On the metered provider every operation is the same check, answer
    and deduction, at its own cost. *)
Lemma perform_metered m u request s :
  Modality.perform m u request XenoCloud s
  = if CreditWallet.cached_balance (wallet s) >=? Modality.cost m then
      (set_credits_used (Modality.cost m)
         (set_content (Modality.placeholder m)
            (set_success true (AIResponse_uninit u))),
       (AIIntegration.deductCredits (Modality.cost m) s).2)
    else
      (set_error_message "Insufficient credits"
         (set_success false (AIResponse_uninit u)), s).
Proof.
  destruct s as [c w].
  destruct m;
    unfold Modality.perform, generateImage, processVideo, processAudio,
      completeCode, chatCompletion, validateCredits, getCreditBalance,
      on_wallet, CreditWallet.getBalance, get, mbind, State_bind, mret,
      State_ret;
    cbn -[AIIntegration.deductCredits Z.geb];
    destruct (CreditWallet.cached_balance w >=? _);
    cbn -[AIIntegration.deductCredits];
    try done;
    by destruct (AIIntegration.deductCredits _ _).
Qed.

(** On any other provider no operation looks at the wallet. *)
Lemma perform_unmetered m u request provider s :
  provider ≠ XenoCloud →
  Modality.perform m u request provider s
  = (set_credits_used 0
       (set_content (Modality.placeholder m)
          (set_success true (AIResponse_uninit u))), s).
Proof.
  intros Hp.
  destruct m, provider; try done;
    unfold Modality.perform, generateImage, processVideo, processAudio,
      completeCode, chatCompletion, mbind, State_bind, mret, State_ret;
    by cbn.
Qed.

End Integration.

(** C3. On the metered provider each per-modality operation checks its
    fixed cost (image 3, video 5, audio 2, code 1, chat 1) against the
    balance. Below the cost it answers [success = false] with the message
    "Insufficient credits" and changes nothing. Otherwise it answers
    [success = true], reports the cost as [credits_used] and deducts exactly
    that cost, logging one transaction. *)
Theorem metered_operation_charges_fixed_cost
    (m : Modality.t) (u : AIIntegration.Indeterminate)
    (request : AIIntegration.AIRequest) (s : AIIntegration.Impl) :
  let balance := CreditWallet.cached_balance (AIIntegration.wallet s) in
  CInt.in_range balance →
  let '(response, s') := Modality.perform m u request AIIntegration.XenoCloud s in
  Modality.cost m = match m with
                    | Modality.Image => 3
                    | Modality.Video => 5
                    | Modality.Audio => 2
                    | Modality.Code | Modality.Chat => 1
                    end
  ∧ (balance < Modality.cost m →
     AIIntegration.success response = false
     ∧ AIIntegration.error_message response = "Insufficient credits"
     ∧ s' = s)
  ∧ (Modality.cost m <= balance →
     AIIntegration.success response = true
     ∧ AIIntegration.credits_used response = Modality.cost m
     ∧ AIIntegration.configs s' = AIIntegration.configs s
     ∧ CreditWallet.cached_balance (AIIntegration.wallet s')
       = balance - Modality.cost m
     ∧ ∃ t, CreditWallet.transactions (AIIntegration.wallet s')
            = CreditWallet.transactions (AIIntegration.wallet s) ++ [t]
            ∧ CreditWallet.credits t = - Modality.cost m
            ∧ CreditWallet.success t = true).
Proof.
  intros balance Hr. rewrite perform_metered. fold balance.
  destruct (Z.geb_spec balance (Modality.cost m)) as [Hge | Hlt].
  - split; [by destruct m |]. split; [lia | intros _].
    rewrite deductCredits_wallet, deductCredits_enough by (fold balance; lia).
    fold balance. cbn. repeat split.
    + unfold CInt.sub. apply wrap_id.
      unfold CInt.in_range, CInt.INT_MIN, CInt.INT_MAX in *.
      destruct m; simpl in *; lia.
    + eexists. repeat split. by destruct m.
  - split; [by destruct m |]. split; [by intros _ | lia].
Qed.

Lemma metered_operation_charges_fixed_cost_witness :
  let broke :=
    {| AIIntegration.configs := ∅;
       AIIntegration.wallet :=
         Ledger.run [Ledger.DeductCredits 100 "x"] CreditWallet.new |} in
  let u := AIIntegration.mkIndeterminate true 7 in
  let request := AIIntegration.mkAIRequest "int main() {" "" ∅ "code_completion" in
  (let '(response, s') :=
     AIIntegration.completeCode u request AIIntegration.XenoCloud broke in
   AIIntegration.success response = false
   ∧ AIIntegration.error_message response = "Insufficient credits"
   ∧ s' = broke)
  ∧ (let '(response, s') :=
       AIIntegration.generateImage u request AIIntegration.XenoCloud
         AIIntegration.new in
     AIIntegration.success response = true
     ∧ AIIntegration.credits_used response = 3
     ∧ CreditWallet.cached_balance (AIIntegration.wallet s') = 100 - 3).
Proof.
  intros broke u request. split.
  - pose proof (metered_operation_charges_fixed_cost Modality.Code u request
                  broke) as H.
    cbn [Modality.perform] in H.
    destruct (AIIntegration.completeCode u request AIIntegration.XenoCloud broke)
      as [response s'].
    destruct H as (_ & H & _); [by vm_compute |].
    apply H. by vm_compute.
  - pose proof (metered_operation_charges_fixed_cost Modality.Image u request
                  AIIntegration.new) as H.
    cbn [Modality.perform] in H.
    destruct (AIIntegration.generateImage u request AIIntegration.XenoCloud
                AIIntegration.new) as [response s'].
    destruct H as (_ & _ & H); [by vm_compute |].
    destruct H as (Hs & Hc & _ & Hb & _); [by vm_compute |].
    split; [exact Hs |]. split; [exact Hc | exact Hb].
Defined.

(** C9. With a provider that is not metered (OpenRouter or Ollama) every
    per-modality operation leaves the integration object, and so the balance
    and the transaction log, as they were, and answers [success = true] with
    [credits_used = 0]. *)
Theorem unmetered_operation_is_free
    (m : Modality.t) (u : AIIntegration.Indeterminate)
    (request : AIIntegration.AIRequest) (provider : AIIntegration.AIProvider)
    (s : AIIntegration.Impl) :
  provider = AIIntegration.OpenRouter ∨ provider = AIIntegration.Ollama →
  let '(response, s') := Modality.perform m u request provider s in
  s' = s
  ∧ AIIntegration.success response = true
  ∧ AIIntegration.credits_used response = 0.
Proof.
  intros Hp. rewrite perform_unmetered; [done |].
  by destruct Hp as [-> | ->].
Qed.

Lemma unmetered_operation_is_free_witness :
  let u := AIIntegration.mkIndeterminate false 9 in
  let request := AIIntegration.mkAIRequest "hello" "llama" ∅ "chat" in
  let '(response, s') :=
    AIIntegration.chatCompletion u request AIIntegration.Ollama
      AIIntegration.new in
  s' = AIIntegration.new
  ∧ AIIntegration.success response = true
  ∧ AIIntegration.credits_used response = 0.
Proof.
  intros u request.
  apply (unmetered_operation_is_free Modality.Chat u request
           AIIntegration.Ollama AIIntegration.new).
  by right.
Defined.

(** C10. [makeAPICall] answers [success = true] and reports 1 credit for
    the metered provider and 0 for any other, and leaves the integration
    object (balance and transaction log included) as it was: the cost it
    reports is never deducted. *)
Theorem makeAPICall_reports_without_deducting
    (u : AIIntegration.Indeterminate) (provider : AIIntegration.AIProvider)
    (endpoint : string) (payload : json) (s : AIIntegration.Impl) :
  let '(response, s') := AIIntegration.makeAPICall u provider endpoint payload s in
  AIIntegration.success response = true
  ∧ AIIntegration.credits_used response
    = (if decide (provider = AIIntegration.XenoCloud) then 1 else 0)
  ∧ s' = s.
Proof. by destruct provider. Qed.

(** ** Loading the configuration file *)

Section LoadConfig.

Import AIIntegration.
Variable ifstream_open : string → option string.
Variable json_parse : string → option json.
Implicit Types (s : Impl) (config : json) (p : AIProvider).

Lemma loadConfigFromFile_parsed path text config s :
  ifstream_open path = Some text →
  json_parse text = Some config →
  loadConfigFromFile ifstream_open json_parse path s
  = match ConfigFile.load_sections config s with
    | (Ok b, s') => (b, s')
    | (Throw _, s') => (false, s')
    end.
Proof.
  intros Hopen Hparse.
  unfold loadConfigFromFile, try_catch, parse_stream. rewrite Hopen, Hparse.
  unfold throwing_bind at 1. unfold lift_exn at 1.
  fold (ConfigFile.load_sections config).
  by destruct (ConfigFile.load_sections config s) as [[b | e] s'].
Qed.

Lemma load_xeno_ai_ok : ConfigFile.loader_ok load_xeno_ai XenoCloud.
Proof.
  intros config s. unfold load_xeno_ai, ConfigFile.section_readable.
  cbn [ConfigFile.section_name ConfigFile.section_fields forallb].
  destruct (Json.contains config "xeno_ai"); [| by destruct s].
  unfold throwing_bind, lift_exn, lift_state.
  destruct (string_field config "xeno_ai" "endpoint") as [e | ?];
    [| destruct s; repeat split; eauto; done].
  destruct (string_field config "xeno_ai" "api_key") as [k | ?];
    [| destruct s; repeat split; eauto; done].
  cbn. repeat split; try done.
  intros p' Hp'. unfold set_configs. cbn [configs]. by rewrite lookup_insert_ne.
Qed.

Lemma load_open_router_ok : ConfigFile.loader_ok load_open_router OpenRouter.
Proof.
  intros config s. unfold load_open_router, ConfigFile.section_readable.
  cbn [ConfigFile.section_name ConfigFile.section_fields forallb].
  destruct (Json.contains config "open_router"); [| by destruct s].
  unfold throwing_bind, lift_exn, lift_state.
  destruct (string_field config "open_router" "endpoint") as [e | ?];
    [| destruct s; repeat split; eauto; done].
  destruct (string_field config "open_router" "api_key") as [k | ?];
    [| destruct s; repeat split; eauto; done].
  cbn. repeat split; try done.
  intros p' Hp'. unfold set_configs. cbn [configs]. by rewrite lookup_insert_ne.
Qed.

Lemma load_ollama_ok : ConfigFile.loader_ok load_ollama Ollama.
Proof.
  intros config s. unfold load_ollama, ConfigFile.section_readable.
  cbn [ConfigFile.section_name ConfigFile.section_fields forallb].
  destruct (Json.contains config "ollama"); [| by destruct s].
  unfold throwing_bind, lift_exn, lift_state.
  destruct (string_field config "ollama" "endpoint") as [e | ?];
    [| destruct s; repeat split; eauto; done].
  cbn. repeat split; try done.
  intros p' Hp'. unfold set_configs. cbn [configs]. by rewrite lookup_insert_ne.
Qed.

Lemma sections_ok_iff config :
  ConfigFile.sections_ok config = true
  ↔ ∀ p, Json.contains config (ConfigFile.section_name p) = false
         ∨ ConfigFile.section_readable config p = true.
Proof.
  unfold ConfigFile.sections_ok. cbn [forallb].
  rewrite !andb_true_iff, !orb_true_iff, !negb_true_iff. split.
  - by intros (? & ? & ? & _) [].
  - intros H. repeat split; apply H.
Qed.

(** One loader after a prefix of the sequence: entries of missing or
    unreadable sections are still those of the start. *)
Lemma loader_frame load p0 config s0 s1 r s2 :
  ConfigFile.loader_ok load p0 →
  load config s1 = (r, s2) →
  (∀ p, Json.contains config (ConfigFile.section_name p) = false
        ∨ ConfigFile.section_readable config p = false →
        configs s1 !! p = configs s0 !! p) →
  ∀ p, Json.contains config (ConfigFile.section_name p) = false
       ∨ ConfigFile.section_readable config p = false →
       configs s2 !! p = configs s0 !! p.
Proof.
  intros Hok Hload Hprev p Hp. rewrite <- (Hprev p Hp).
  specialize (Hok config s1). rewrite Hload in Hok.
  destruct Hok as (_ & Hother & Hmissing & _ & Hthrow).
  destruct (decide (p = p0)) as [-> | Hne]; [| by apply Hother].
  destruct (Json.contains config (ConfigFile.section_name p0)) eqn:Hc.
  - destruct Hp as [Hp | Hp]; [done |]. by destruct (Hthrow eq_refl Hp) as [_ ->].
  - by destruct (Hmissing eq_refl) as [_ ->].
Qed.

(** A loader that returns has found its section missing or readable; one
    that throws has found it present and unreadable. *)
Lemma loader_result load p0 config s1 r s2 :
  ConfigFile.loader_ok load p0 →
  load config s1 = (r, s2) →
  wallet s2 = wallet s1
  ∧ match r with
    | Ok _ => Json.contains config (ConfigFile.section_name p0) = false
              ∨ ConfigFile.section_readable config p0 = true
    | Throw _ => Json.contains config (ConfigFile.section_name p0) = true
                 ∧ ConfigFile.section_readable config p0 = false
    end.
Proof.
  intros Hok Hload. specialize (Hok config s1). rewrite Hload in Hok.
  destruct Hok as (Hw & _ & Hmissing & Hreadable & Hthrow).
  split; [done |].
  destruct (Json.contains config (ConfigFile.section_name p0)) eqn:Hc,
    (ConfigFile.section_readable config p0) eqn:Hr, r as [[] | e];
    auto; try (by destruct Hmissing); try (by specialize (Hreadable eq_refl)).
  by destruct (Hthrow eq_refl eq_refl) as [[e Hx] _].
Qed.

(** The loaders together: the wallet is not touched, the entry of a
    provider whose section is missing or unreadable is not touched, and
    something is thrown exactly when a section that is present is
    unreadable. *)
Lemma load_sections_effect config s :
  let '(r, s') := ConfigFile.load_sections config s in
  wallet s' = wallet s
  ∧ (∀ p, Json.contains config (ConfigFile.section_name p) = false
          ∨ ConfigFile.section_readable config p = false →
          configs s' !! p = configs s !! p)
  ∧ (if ConfigFile.sections_ok config then r = Ok true
     else ∃ e, r = Throw e).
Proof.
  assert (∀ p, Json.contains config (ConfigFile.section_name p) = true →
               ConfigFile.section_readable config p = false →
               ConfigFile.sections_ok config = false) as Hbad.
  { intros p Hc Hr. apply not_true_is_false. rewrite sections_ok_iff.
    intros H. destruct (H p); congruence. }
  unfold ConfigFile.load_sections, throwing_bind, lift_exn.
  destruct (load_xeno_ai config s) as [r1 s1] eqn:E1.
  pose proof (loader_frame _ _ _ s _ _ _ load_xeno_ai_ok E1 (λ _ _, eq_refl))
    as Hf1.
  destruct (loader_result _ _ _ _ _ _ load_xeno_ai_ok E1) as [Hw1 Hr1].
  destruct r1 as [[] | e1];
    [| destruct Hr1 as [Hc Hr]; rewrite (Hbad _ Hc Hr); eauto].
  destruct (load_open_router config s1) as [r2 s2] eqn:E2.
  pose proof (loader_frame _ _ _ s _ _ _ load_open_router_ok E2 Hf1) as Hf2.
  destruct (loader_result _ _ _ _ _ _ load_open_router_ok E2) as [Hw2 Hr2].
  destruct r2 as [[] | e2];
    [| destruct Hr2 as [Hc Hr]; rewrite (Hbad _ Hc Hr);
       repeat split; eauto; congruence].
  destruct (load_ollama config s2) as [r3 s3] eqn:E3.
  pose proof (loader_frame _ _ _ s _ _ _ load_ollama_ok E3 Hf2) as Hf3.
  destruct (loader_result _ _ _ _ _ _ load_ollama_ok E3) as [Hw3 Hr3].
  destruct r3 as [[] | e3];
    [| destruct Hr3 as [Hc Hr]; rewrite (Hbad _ Hc Hr);
       repeat split; eauto; congruence].
  assert (ConfigFile.sections_ok config = true) as ->
    by (apply sections_ok_iff; by intros []).
  repeat split; [congruence | done].
Qed.

End LoadConfig.

(** C7 as stated fails: a file that opens and parses, with a readable first
    section and a second section that lacks its key, makes
    [loadConfigFromFile] return false after the entry of the first provider
    has been written. *)
Lemma loadConfigFromFile_unreadable_section_partial_update :
  let '(r, s') :=
    AIIntegration.loadConfigFromFile ConfigFile.example_open
      ConfigFile.example_parse "partial.json" AIIntegration.new in
  r = false
  ∧ AIIntegration.configs AIIntegration.new !! AIIntegration.XenoCloud = None
  ∧ AIIntegration.endpoint <$> AIIntegration.configs s' !! AIIntegration.XenoCloud
    = Some "https://api.xenolabs.ai".
Proof. by vm_compute. Qed.

(** C7, amended. [loadConfigFromFile] returns false when the file cannot be
    opened and when its text does not parse, and in both cases the
    integration object, the provider map included, is exactly as before.
    When the text parses, it returns true exactly when every section that
    is present has its string fields, whatever it returns the wallet and the
    entry of every provider whose section is missing or unreadable are left
    as they were, and a missing section is not an error. *)
Theorem loadConfigFromFile_failures
    (ifstream_open : string → option string)
    (json_parse : string → option json)
    (path : string) (s : AIIntegration.Impl) :
  let '(r, s') :=
    AIIntegration.loadConfigFromFile ifstream_open json_parse path s in
  (ifstream_open path = None → r = false ∧ s' = s)
  ∧ (∀ text, ifstream_open path = Some text → json_parse text = None →
             r = false ∧ s' = s)
  ∧ (∀ text config,
       ifstream_open path = Some text → json_parse text = Some config →
       r = ConfigFile.sections_ok config
       ∧ AIIntegration.wallet s' = AIIntegration.wallet s
       ∧ (∀ p, Json.contains config (ConfigFile.section_name p) = false
               ∨ ConfigFile.section_readable config p = false →
               AIIntegration.configs s' !! p = AIIntegration.configs s !! p)).
Proof.
  destruct (ifstream_open path) as [text |] eqn:Hopen.
  - destruct (json_parse text) as [config |] eqn:Hparse.
    + rewrite (loadConfigFromFile_parsed _ _ _ _ _ _ Hopen Hparse).
      pose proof (load_sections_effect config s) as H.
      destruct (ConfigFile.load_sections config s) as [r s'].
      destruct H as (Hw & Hc & Hr).
      assert (∀ text' config', Some text = Some text' →
                json_parse text' = Some config' → config' = config) as Hsame
        by (intros ?? [= <-]; congruence).
      destruct r as [b | e].
      * split; [done |]. split; [intros ? [= <-]; congruence |].
        intros text' config' Ht Hp. rewrite (Hsame _ _ Ht Hp).
        repeat split; [| done | done].
        destruct (ConfigFile.sections_ok config); [congruence | by destruct Hr].
      * split; [done |]. split; [intros ? [= <-]; congruence |].
        intros text' config' Ht Hp. rewrite (Hsame _ _ Ht Hp).
        repeat split; [| done | done].
        by destruct (ConfigFile.sections_ok config).
    + unfold AIIntegration.loadConfigFromFile, AIIntegration.try_catch,
        AIIntegration.parse_stream.
      rewrite Hopen, Hparse. cbn.
      split; [done |]. split; [done |].
      intros text' config' [= <-]. congruence.
  - unfold AIIntegration.loadConfigFromFile, AIIntegration.try_catch.
    rewrite Hopen. cbn. by repeat split.
Qed.

Lemma loadConfigFromFile_failures_witness :
  AIIntegration.loadConfigFromFile ConfigFile.example_open
    ConfigFile.example_parse "absent.json" AIIntegration.new
  = (false, AIIntegration.new)
  ∧ AIIntegration.loadConfigFromFile ConfigFile.example_open
      ConfigFile.example_parse "broken.json" AIIntegration.new
    = (false, AIIntegration.new)
  ∧ (let '(r, s') :=
       AIIntegration.loadConfigFromFile ConfigFile.example_open
         ConfigFile.example_parse "ollama.json" AIIntegration.new in
     r = true
     ∧ AIIntegration.configs s' !! AIIntegration.XenoCloud = None
     ∧ AIIntegration.configs s' !! AIIntegration.OpenRouter = None).
Proof.
  split; [| split].
  - pose proof (loadConfigFromFile_failures ConfigFile.example_open
                  ConfigFile.example_parse "absent.json" AIIntegration.new) as H.
    destruct (AIIntegration.loadConfigFromFile _ _ _ _) as [r s'].
    destruct H as [H _]. destruct H as [-> ->]; reflexivity.
  - pose proof (loadConfigFromFile_failures ConfigFile.example_open
                  ConfigFile.example_parse "broken.json" AIIntegration.new) as H.
    destruct (AIIntegration.loadConfigFromFile _ _ _ _) as [r s'].
    destruct H as (_ & H & _).
    destruct (H "{" eq_refl eq_refl) as [-> ->]. reflexivity.
  - pose proof (loadConfigFromFile_failures ConfigFile.example_open
                  ConfigFile.example_parse "ollama.json" AIIntegration.new) as H.
    destruct (AIIntegration.loadConfigFromFile _ _ _ _) as [r s'].
    destruct H as (_ & _ & H).
    destruct (H _ _ eq_refl eq_refl) as (Hr & _ & Hc).
    split; [exact Hr |].
    split; (rewrite Hc; [reflexivity | by left]).
Defined.
Example wallet_scenario :
  let '(r1, w1) := CreditWallet.deductCredits 5 "x" CreditWallet.new in
  let '(r2, w2) := CreditWallet.addCredits 10 w1 in
  let '(r3, w3) := CreditWallet.deductCredits 1000 "y" w2 in
  (r1, CreditWallet.cached_balance w1) = (true, 95)
  ∧ CreditWallet.cached_balance w2 = 105
  ∧ (r3, CreditWallet.cached_balance w3) = (false, 105)
  ∧ CreditWallet.transactions w3 =
      [ CreditWallet.mkTransaction "tx_1" "x" (-5) "2024-01-01T00:00:00Z" true;
        CreditWallet.mkTransaction "tx_2" "credit_purchase" 10
          "2024-01-01T00:00:00Z" true ]
  ∧ CreditWallet.getTransactionHistory 1 w3 =
      Done [ CreditWallet.mkTransaction "tx_2" "credit_purchase" 10
               "2024-01-01T00:00:00Z" true ].
Proof. vm_compute. done. Qed.

(** A limit of [INT_MIN] starts the loop at a negative index: the first
    access is out of bounds. *)
Example history_of_INT_MIN :
  CreditWallet.getTransactionHistory CInt.INT_MIN CreditWallet.new = Undefined.
Proof. reflexivity. Qed.

(** A provider is available exactly once it has been configured. *)
Example provider_available_after_configure :
  (AIIntegration.isProviderAvailable AIIntegration.Ollama AIIntegration.new).1
  = false
  ∧ (AIIntegration.isProviderAvailable AIIntegration.Ollama
       (AIIntegration.configure AIIntegration.Ollama
          AIIntegration.APIConfig_default AIIntegration.new).2).1
    = true.
Proof. by vm_compute. Qed.

(** * Further properties of the code *)

(** ** The transaction log *)

Section Log.

Import Ledger.
Implicit Types (w : CreditWallet.Impl) (c : WalletCall) (cs : list WalletCall).

Lemma run_app cs1 cs2 w : run (cs1 ++ cs2) w = run cs2 (run cs1 w).
Proof. revert w. induction cs1 as [| c cs1 IH]; intros w; simpl; auto. Qed.

Lemma call_log_prefix c w :
  CreditWallet.transactions w `prefix_of` CreditWallet.transactions (call c w).
Proof. rewrite call_log. by eexists. Qed.

Lemma run_log_prefix cs w :
  CreditWallet.transactions w `prefix_of` CreditWallet.transactions (run cs w).
Proof.
  revert w. induction cs as [| c cs IH]; intros w; simpl; [done |].
  etrans; [apply call_log_prefix | apply IH].
Qed.

Lemma call_numbered c w : LogShape.numbered w → LogShape.numbered (call c w).
Proof.
  intros Hw i t. rewrite call_log. intros Hi.
  apply lookup_app_Some in Hi as [Hi | [Hlen Hi]]; [by apply Hw |].
  assert (Z.of_nat i = CreditWallet.size w) as Hsize.
  { destruct (applied c w); [| done].
    destruct c; try done; apply list_lookup_singleton_Some in Hi as [Hi _];
      unfold CreditWallet.size; lia. }
  rewrite Hsize.
  destruct (applied c w); [| done].
  destruct c; try done; by apply list_lookup_singleton_Some in Hi as [_ <-].
Qed.

Lemma run_numbered cs w : LogShape.numbered w → LogShape.numbered (run cs w).
Proof.
  revert w. induction cs as [| c cs IH]; intros w Hw; simpl; [done |].
  by apply IH, call_numbered.
Qed.

Lemma new_numbered : LogShape.numbered CreditWallet.new.
Proof. by intros i t. Qed.

End Log.

(** X1. On the wallet left by any sequence of calls on a new wallet, with
    fewer than [2^31] logged entries, the entry at position [i] of the log
    (from 0) has the id ["tx_"] followed by the decimal digits of [i + 1],
    and no two entries share an id. *)
Theorem transaction_ids_sequential (cs : list Ledger.WalletCall) :
  let w := Ledger.run cs CreditWallet.new in
  CreditWallet.size w <= CInt.INT_MAX →
  (∀ i t, CreditWallet.transactions w !! i = Some t →
          CreditWallet.id t = "tx_" +:+ CInt.to_string (Z.of_nat i + 1))
  ∧ NoDup (CreditWallet.id <$> CreditWallet.transactions w).
Proof.
  intros w Hsize.
  pose proof (run_numbered cs CreditWallet.new new_numbered) as Hnum.
  fold w in Hnum.
  assert (∀ i t, CreditWallet.transactions w !! i = Some t →
            CreditWallet.id t = "tx_" +:+ CInt.to_string (Z.of_nat i + 1))
    as Hids.
  { intros i t Hi. rewrite (Hnum i t Hi). do 2 f_equal.
    apply lookup_lt_Some in Hi.
    unfold CInt.to_size_t, CreditWallet.size, CInt.INT_MAX in *.
    apply Z.mod_small. lia. }
  split; [done |].
  apply NoDup_alt. intros i j x. rewrite !list_lookup_fmap.
  destruct (CreditWallet.transactions w !! i) as [ti |] eqn:Hi; [| done].
  destruct (CreditWallet.transactions w !! j) as [tj |] eqn:Hj; [| done].
  simpl. intros [= <-] [= Heq].
  rewrite (Hids i ti Hi), (Hids j tj Hj) in Heq.
  apply String.app_inj in Heq. unfold CInt.to_string in Heq.
  apply pretty_N_inj in Heq. lia.
Qed.

Lemma transaction_ids_sequential_witness :
  NoDup (CreditWallet.id
           <$> CreditWallet.transactions
                 (Ledger.run [Ledger.DeductCredits 5 "x"; Ledger.AddCredits 10;
                              Ledger.DeductCredits 1 "y"] CreditWallet.new)).
Proof.
  apply (transaction_ids_sequential
           [Ledger.DeductCredits 5 "x"; Ledger.AddCredits 10;
            Ledger.DeductCredits 1 "y"]).
  by vm_compute.
Defined.

(** X2. The log is append-only: whatever calls follow, the entries logged
    so far stay at the head of the log, unchanged and in the same order. *)
Theorem log_is_append_only
    (cs1 cs2 : list Ledger.WalletCall) (w : CreditWallet.Impl) :
  CreditWallet.transactions (Ledger.run cs1 w)
    `prefix_of` CreditWallet.transactions (Ledger.run (cs1 ++ cs2) w).
Proof. rewrite run_app. apply run_log_prefix. Qed.

(** X3. Every entry of the log of a wallet carries [success = true] and the
    placeholder timestamp: a refused deduction leaves no trace in the
    log. *)
Theorem log_records_only_successes (cs : list Ledger.WalletCall) :
  Forall (λ t, CreditWallet.success t = true
               ∧ CreditWallet.timestamp t = "2024-01-01T00:00:00Z")
    (CreditWallet.transactions (Ledger.run cs CreditWallet.new)).
Proof.
  apply (run_log_Forall _ (λ _, True)); try done. by apply Forall_true.
Qed.

(** X4. A deduction of a negative amount from a non-negative balance is
    always accepted and raises the balance: it returns true, the balance
    grows by [-amount], and the entry logged has a positive delta. *)
Theorem deductCredits_negative_amount_adds
    (amount : Z) (op : string) (w : CreditWallet.Impl) :
  let balance := CreditWallet.cached_balance w in
  amount < 0 → 0 <= balance → balance - amount <= CInt.INT_MAX →
  let '(r, w') := CreditWallet.deductCredits amount op w in
  r = true
  ∧ CreditWallet.cached_balance w' = balance - amount
  ∧ balance < CreditWallet.cached_balance w'
  ∧ ∃ t, CreditWallet.transactions w' = CreditWallet.transactions w ++ [t]
         ∧ CreditWallet.credits t = - amount
         ∧ 0 < CreditWallet.credits t.
Proof.
  intros balance Ha Hb Hmax. subst balance.
  rewrite deductCredits_enough by lia. cbn.
  assert (CInt.sub (CreditWallet.cached_balance w) amount
          = CreditWallet.cached_balance w - amount) as ->.
  { apply wrap_id. unfold CInt.in_range, CInt.INT_MIN, CInt.INT_MAX in *. lia. }
  assert (CInt.neg amount = - amount) as Hneg.
  { apply wrap_id. unfold CInt.in_range, CInt.INT_MIN, CInt.INT_MAX in *. lia. }
  repeat split; [lia |]. eexists. split; [done |]. cbn. rewrite Hneg. lia.
Qed.

Lemma deductCredits_negative_amount_adds_witness :
  let '(r, w') := CreditWallet.deductCredits (-40) "refund" CreditWallet.new in
  r = true ∧ CreditWallet.cached_balance w' = 100 - -40.
Proof.
  pose proof (deductCredits_negative_amount_adds (-40) "refund"
                CreditWallet.new) as H.
  destruct (CreditWallet.deductCredits (-40) "refund" CreditWallet.new)
    as [r w'].
  destruct H as (Hr & Hb & _); [lia | by vm_compute | by vm_compute |].
  split; [exact Hr | exact Hb].
Defined.

(** X5. A top-up followed by a deduction of the same amount: when the sum
    is an [int], the deduction is accepted exactly when the balance before
    the top-up was not negative, the balance is then back to what it was,
    and the log has grown by the two entries [+amount] and [-amount]. *)
Theorem addCredits_then_deductCredits
    (amount : Z) (op : string) (w : CreditWallet.Impl) :
  let balance := CreditWallet.cached_balance w in
  CInt.in_range balance → CInt.in_range (balance + amount) →
  let w1 := (CreditWallet.addCredits amount w).2 in
  let '(r, w2) := CreditWallet.deductCredits amount op w1 in
  (r = true ↔ 0 <= balance)
  ∧ (0 <= balance →
     CreditWallet.cached_balance w2 = balance
     ∧ Ledger.log_deltas w2
       = Ledger.log_deltas w ++ [amount; CInt.neg amount])
  ∧ (balance < 0 → w2 = w1).
Proof.
  intros balance Hb Hsum w1. subst w1. rewrite addCredits_eq. cbn [snd].
  set (w1 := CreditWallet.push_back_transaction _ _).
  assert (CreditWallet.cached_balance w1 = balance + amount) as Hw1
    by (by apply wrap_id).
  destruct (Z_lt_le_dec balance 0) as [Hneg | Hpos].
  - rewrite deductCredits_short by lia. repeat split; try done; lia.
  - rewrite deductCredits_enough by lia. split; [done |]. split; [| lia].
    intros _. split.
    + cbn [CreditWallet.cached_balance CreditWallet.push_back_transaction
           CreditWallet.set_cached_balance].
      fold w1. rewrite Hw1. unfold CInt.sub.
      replace (balance + amount - amount) with balance by lia.
      by apply wrap_id.
    + rewrite log_deltas_push. subst w1. rewrite log_deltas_push.
      by rewrite <- app_assoc.
Qed.

Lemma addCredits_then_deductCredits_witness :
  let w1 := (CreditWallet.addCredits 25 CreditWallet.new).2 in
  let '(r, w2) := CreditWallet.deductCredits 25 "undo" w1 in
  r = true ∧ CreditWallet.cached_balance w2 = 100.
Proof.
  pose proof (addCredits_then_deductCredits 25 "undo" CreditWallet.new) as H.
  cbv zeta in H |- *.
  destruct (CreditWallet.deductCredits 25 "undo"
              (CreditWallet.addCredits 25 CreditWallet.new).2) as [r w2].
  destruct H as (Hr & Hb & _); [by vm_compute | by vm_compute |].
  split; [apply Hr; by vm_compute | apply Hb; by vm_compute].
Defined.

(** ** More on the transaction history *)

(** X6. The entry a call has just logged is the most recent one: after a
    deduction that was accepted, or a top-up, on a wallet with fewer than
    [2^31 - 1] entries, [getTransactionHistory(1)] returns exactly that
    entry, whose delta is the one the call applied. *)
Theorem getTransactionHistory_shows_last_call
    (c : Ledger.WalletCall) (w : CreditWallet.Impl) :
  Ledger.applied c w = true →
  CreditWallet.size w < CInt.INT_MAX →
  ∃ t, CreditWallet.transactions (Ledger.call c w)
       = CreditWallet.transactions w ++ [t]
       ∧ CreditWallet.credits t = Ledger.delta c w
       ∧ CreditWallet.getTransactionHistory 1 (Ledger.call c w) = Done [t].
Proof.
  intros Happ Hsize.
  assert (∃ t, CreditWallet.transactions (Ledger.call c w)
               = CreditWallet.transactions w ++ [t]
               ∧ CreditWallet.credits t = Ledger.delta c w) as (t & Hlog & Ht).
  { rewrite call_log, Happ.
    destruct c as [| | amount op | amount |]; try done; eexists; split;
      try done.
    simpl in *. by rewrite Happ. }
  exists t. split; [done |]. split; [done |].
  assert (CreditWallet.size (Ledger.call c w) = CreditWallet.size w + 1)
    as Hsize'.
  { unfold CreditWallet.size. rewrite Hlog, length_app. simpl. lia. }
  pose proof (size_nonneg w).
  rewrite getTransactionHistory_fuel by lia. rewrite Hsize'.
  rewrite Z.min_l by lia.
  replace (CreditWallet.size w + 1 - 1) with (CreditWallet.size w) by lia.
  rewrite wrap_size by lia.
  destruct (Z.ltb_spec (CreditWallet.size w) 0); [lia |].
  rewrite Hlog. unfold CreditWallet.size. rewrite Nat2Z.id.
  by rewrite drop_app_length.
Qed.

Lemma getTransactionHistory_shows_last_call_witness :
  ∃ t, CreditWallet.credits t = 10
       ∧ CreditWallet.getTransactionHistory 1
           (Ledger.call (Ledger.AddCredits 10) CreditWallet.new)
         = Done [t].
Proof.
  destruct (getTransactionHistory_shows_last_call (Ledger.AddCredits 10)
              CreditWallet.new) as (t & _ & Hc & Hh);
    [reflexivity | by vm_compute |].
  exists t. split; [exact Hc | exact Hh].
Defined.

(** X7. A limit that is at least the number of logged entries returns the
    whole log, in order: in particular the default limit of 50 on a log of
    at most 50 entries. A limit of 0 returns nothing. *)
Theorem getTransactionHistory_whole_log (k : Z) (w : CreditWallet.Impl) :
  CreditWallet.size w <= CInt.INT_MAX →
  (CreditWallet.size w <= k →
   CreditWallet.getTransactionHistory k w
   = Done (CreditWallet.transactions w))
  ∧ CreditWallet.getTransactionHistory 0 w = Done [].
Proof.
  intros Hsize. pose proof (size_nonneg w). split.
  - intros Hk. rewrite getTransactionHistory_fuel by done.
    rewrite Z.min_r, Z.sub_diag by lia. by rewrite (wrap_id 0).
  - rewrite getTransactionHistory_fuel by done.
    rewrite Z.min_l, Z.sub_0_r, wrap_size by lia.
    destruct (Z.ltb_spec (CreditWallet.size w) 0); [lia |].
    rewrite drop_ge; [done |]. unfold CreditWallet.size. lia.
Qed.

Lemma getTransactionHistory_whole_log_witness :
  let w := Ledger.run [Ledger.DeductCredits 5 "x"; Ledger.AddCredits 10]
             CreditWallet.new in
  CreditWallet.getTransactionHistory 50 w = Done (CreditWallet.transactions w).
Proof.
  intros w.
  destruct (getTransactionHistory_whole_log 50 w) as [H _];
    [by vm_compute |].
  apply H. by vm_compute.
Defined.

(** X8. Histories are nested: for [0 <= k <= k'] what
    [getTransactionHistory(k)] returns is the tail of what
    [getTransactionHistory(k')] returns. *)
Theorem getTransactionHistory_nested (k k' : Z) (w : CreditWallet.Impl) :
  CreditWallet.size w <= CInt.INT_MAX →
  0 <= k <= k' →
  ∃ r r', CreditWallet.getTransactionHistory k w = Done r
          ∧ CreditWallet.getTransactionHistory k' w = Done r'
          ∧ r `suffix_of` r'.
Proof.
  intros Hsize Hk. pose proof (size_nonneg w) as H0.
  rewrite !getTransactionHistory_fuel by done.
  set (n := CreditWallet.size w) in *.
  assert (∀ j, 0 <= j → CInt.wrap (n - Z.min j n) = n - Z.min j n) as Hw.
  { intros j Hj. apply wrap_id.
    unfold CInt.in_range, CInt.INT_MIN, CInt.INT_MAX in *. lia. }
  rewrite !Hw by lia.
  destruct (Z.ltb_spec (n - Z.min k n) 0); [lia |].
  destruct (Z.ltb_spec (n - Z.min k' n) 0); [lia |].
  do 2 eexists. split; [done |]. split; [done |].
  replace (Z.to_nat (n - Z.min k n))
    with (Z.to_nat (n - Z.min k' n) + Z.to_nat (Z.min k' n - Z.min k n))%nat
    by lia.
  rewrite <- drop_drop. apply suffix_drop.
Qed.

Lemma getTransactionHistory_nested_witness :
  let w := Ledger.run [Ledger.DeductCredits 5 "x"; Ledger.AddCredits 10;
                       Ledger.DeductCredits 1 "y"] CreditWallet.new in
  ∃ r r', CreditWallet.getTransactionHistory 1 w = Done r
          ∧ CreditWallet.getTransactionHistory 2 w = Done r'
          ∧ r `suffix_of` r'.
Proof.
  intros w. apply getTransactionHistory_nested; [by vm_compute | lia].
Defined.

(** X9. A negative limit [k] on a log of [total] entries: as long as
    [total - k] is an [int] the history is empty; as soon as it exceeds
    [INT_MAX] the loop starts at a negative index and reads outside the
    vector. *)
Theorem getTransactionHistory_negative_limit (k : Z) (w : CreditWallet.Impl) :
  CreditWallet.size w <= CInt.INT_MAX →
  CInt.INT_MIN <= k < 0 →
  CreditWallet.getTransactionHistory k w
  = if CreditWallet.size w - k <=? CInt.INT_MAX then Done [] else Undefined.
Proof.
  intros Hsize Hk. pose proof (size_nonneg w) as H0.
  rewrite getTransactionHistory_fuel by done.
  set (n := CreditWallet.size w) in *. rewrite Z.min_l by lia.
  unfold CInt.INT_MIN, CInt.INT_MAX in *.
  destruct (Z.leb_spec (n - k) 2147483647) as [Hle | Hgt].
  - rewrite wrap_id by (unfold CInt.in_range, CInt.INT_MIN, CInt.INT_MAX; lia).
    destruct (Z.ltb_spec (n - k) 0); [lia |].
    rewrite drop_ge; [done |]. subst n. unfold CreditWallet.size. lia.
  - rewrite <- (wrap_shift (n - k) (-1)).
    rewrite wrap_id by (unfold CInt.in_range, CInt.INT_MIN, CInt.INT_MAX; lia).
    destruct (Z.ltb_spec (n - k + 2 ^ 32 * -1) 0); [done | lia].
Qed.

Lemma getTransactionHistory_negative_limit_witness :
  CreditWallet.getTransactionHistory (-2147483647)
    (Ledger.run [Ledger.AddCredits 1] CreditWallet.new)
  = Undefined.
Proof.
  rewrite getTransactionHistory_negative_limit; [done | by vm_compute |].
  by vm_compute.
Defined.

(** ** Providers *)

Section Providers.

Import AIIntegration.
Implicit Types (s : Impl) (p : AIProvider) (c : APIConfig).

Lemma configure_eq p c s :
  configure p c s = (true, set_configs (<[p := c]> (configs s)) s).
Proof. reflexivity. Qed.

Lemma isProviderAvailable_eq p s :
  isProviderAvailable p s = (bool_decide (is_Some (configs s !! p)), s).
Proof. reflexivity. Qed.

Lemma configure_all_wallet settings s :
  wallet (Session.configure_all settings s) = wallet s.
Proof.
  revert s. induction settings as [| [p c] settings IH]; intros s; simpl;
    [done |].
  by rewrite IH.
Qed.

Lemma configure_all_lookup settings p s :
  is_Some (configs (Session.configure_all settings s) !! p)
  ↔ is_Some (configs s !! p) ∨ p ∈ settings.*1.
Proof.
  revert s. induction settings as [| [p' c] settings IH]; intros s; simpl.
  - rewrite elem_of_nil. tauto.
  - rewrite IH, elem_of_cons. cbn.
    destruct (decide (p' = p)) as [-> | Hne].
    + rewrite lookup_insert_eq. split; [auto | intros _; left; eauto].
    + rewrite lookup_insert_ne by done. split; intros [? | ?]; auto.
      destruct H; [congruence | auto].
Qed.


End Providers.


(** ** Checking before charging *)

Section Precheck.

Import AIIntegration.
Implicit Types (s : Impl) (m : Modality.t).

Lemma validateCredits_eq n s :
  validateCredits n s
  = (CreditWallet.cached_balance (wallet s) >=? n, s).
Proof. by destruct s. Qed.

End Precheck.

(** X11. [validateCredits(n)] predicts [deductCredits(n)]: the deduction
    returns what the check returned, changes nothing when that is false,
    and otherwise takes [n] off the balance and logs one ["api_call"]
    entry, leaving the provider map alone. *)
Theorem validateCredits_predicts_deductCredits
    (n : Z) (s : AIIntegration.Impl) :
  let balance := CreditWallet.cached_balance (AIIntegration.wallet s) in
  let '(r, s') := AIIntegration.deductCredits n s in
  r = (AIIntegration.validateCredits n s).1
  ∧ (r = false → s' = s)
  ∧ (r = true →
     AIIntegration.configs s' = AIIntegration.configs s
     ∧ CreditWallet.cached_balance (AIIntegration.wallet s')
       = CInt.sub balance n
     ∧ (CInt.in_range (balance - n) →
        CreditWallet.cached_balance (AIIntegration.wallet s') = balance - n)
     ∧ ∃ t, CreditWallet.transactions (AIIntegration.wallet s')
            = CreditWallet.transactions (AIIntegration.wallet s) ++ [t]
            ∧ CreditWallet.operation t = "api_call").
Proof.
  intros balance. rewrite deductCredits_wallet, validateCredits_eq. cbn [fst].
  fold balance.
  destruct (Z.geb_spec balance n) as [Hge | Hlt].
  - rewrite deductCredits_enough by (fold balance; lia). cbn.
    split; [done |]. split; [done |]. intros _. fold balance.
    repeat split.
    + intros Hr. by apply wrap_id.
    + by eexists.
  - rewrite deductCredits_short by (fold balance; lia). cbn.
    split; [done |]. split; [by destruct s | done].
Qed.

Lemma validateCredits_predicts_deductCredits_witness :
  let '(r, s') := AIIntegration.deductCredits 2 AIIntegration.new in
  r = true
  ∧ CreditWallet.cached_balance (AIIntegration.wallet s') = 100 - 2.
Proof.
  pose proof (validateCredits_predicts_deductCredits 2 AIIntegration.new) as H.
  destruct (AIIntegration.deductCredits 2 AIIntegration.new) as [r s'].
  destruct H as (Hr & _ & H). split; [exact Hr |].
  destruct (H Hr) as (_ & _ & Hb & _). apply Hb. by vm_compute.
Defined.

(** X12. A per-modality operation on the metered provider that follows a
    passed check [validateCredits(n)] with [n] at least the operation's
    cost never answers "Insufficient credits": it succeeds, and it charges
    the operation's own cost, whatever [n] was checked. *)
Theorem validated_operation_succeeds
    (m : Modality.t) (u : AIIntegration.Indeterminate)
    (request : AIIntegration.AIRequest) (n : Z) (s : AIIntegration.Impl) :
  let balance := CreditWallet.cached_balance (AIIntegration.wallet s) in
  balance <= CInt.INT_MAX →
  (AIIntegration.validateCredits n s).1 = true →
  Modality.cost m <= n →
  let '(response, s') := Modality.perform m u request AIIntegration.XenoCloud s in
  AIIntegration.success response = true
  ∧ AIIntegration.error_message response = ""
  ∧ AIIntegration.credits_used response = Modality.cost m
  ∧ CreditWallet.cached_balance (AIIntegration.wallet s')
    = balance - Modality.cost m
  ∧ n - Modality.cost m
    <= CreditWallet.cached_balance (AIIntegration.wallet s').
Proof.
  intros balance Hmax. rewrite validateCredits_eq. cbn [fst]. fold balance.
  intros Hn%Z.geb_le Hcost. rewrite perform_metered. fold balance.
  destruct (Z.geb_spec balance (Modality.cost m)) as [Hge | Hlt]; [| lia].
  rewrite deductCredits_wallet, deductCredits_enough by (fold balance; lia).
  fold balance. cbn.
  assert (CInt.sub balance (Modality.cost m) = balance - Modality.cost m) as ->.
  { apply wrap_id. unfold CInt.in_range, CInt.INT_MIN, CInt.INT_MAX in *.
    destruct m; simpl in *; lia. }
  repeat split; lia.
Qed.

Lemma validated_operation_succeeds_witness :
  let u := AIIntegration.mkIndeterminate false 0 in
  let request := AIIntegration.mkAIRequest "auto edit" "" ∅ "auto_edit" in
  let '(response, s') :=
    AIIntegration.processVideo u request AIIntegration.XenoCloud
      AIIntegration.new in
  AIIntegration.success response = true
  ∧ AIIntegration.credits_used response = 5
  ∧ CreditWallet.cached_balance (AIIntegration.wallet s') = 100 - 5.
Proof.
  intros u request.
  pose proof (validated_operation_succeeds Modality.Video u request 8
                AIIntegration.new) as H.
  cbn [Modality.perform] in H.
  destruct (AIIntegration.processVideo u request AIIntegration.XenoCloud
              AIIntegration.new) as [response s'].
  destruct H as (Hs & _ & Hc & Hb & _);
    [by vm_compute | by vm_compute | by vm_compute |].
  split; [exact Hs |]. split; [exact Hc | exact Hb].
Defined.

(** ** Sessions *)

Section Sessions.

Import AIIntegration.
Implicit Types (s : Impl) (r : Session.Request) (calls : list Session.Request).

Lemma reported_cons (response : AIResponse) (responses : list AIResponse) :
  Session.reported (response :: responses)
  = (if success response then credits_used response else 0)
    + Session.reported responses.
Proof.
  unfold Session.reported. rewrite filter_cons.
  destruct (success response); by case_decide.
Qed.

Lemma successes_cons (response : AIResponse) (responses : list AIResponse) :
  Session.successes (response :: responses)
  = ((if success response then 1 else 0) + Session.successes responses)%nat.
Proof.
  unfold Session.successes. rewrite filter_cons.
  destruct (success response); by case_decide.
Qed.

Lemma perform_all_cons r calls s :
  Session.perform_all (r :: calls) s
  = let '(response, s1) := Session.perform r s in
    let '(responses, s2) := Session.perform_all calls s1 in
    (response :: responses, s2).
Proof.
  cbn [Session.perform_all]. unfold mbind, State_bind, mret, State_ret.
  destruct (Session.perform r s) as [response s1].
  by destruct (Session.perform_all calls s1).
Qed.

(** One call: it charges what a successful response reports, and nothing
    otherwise. *)
Lemma perform_charges r s :
  let balance := CreditWallet.cached_balance (wallet s) in
  0 <= balance <= CInt.INT_MAX →
  let '(response, s') := Session.perform r s in
  configs s' = configs s
  ∧ CreditWallet.cached_balance (wallet s')
    = balance - (if success response then credits_used response else 0)
  ∧ 0 <= CreditWallet.cached_balance (wallet s') <= balance.
Proof.
  intros balance Hb. destruct r as [m u request p]. unfold Session.perform.
  cbn [Session.modality Session.junk Session.request Session.provider].
  destruct (decide (p = XenoCloud)) as [-> | Hp].
  - rewrite perform_metered. fold balance.
    destruct (Z.geb_spec balance (Modality.cost m)) as [Hge | Hlt].
    + rewrite deductCredits_wallet, deductCredits_enough by (fold balance; lia).
      fold balance. cbn.
      assert (CInt.sub balance (Modality.cost m) = balance - Modality.cost m)
        as ->.
      { apply wrap_id. unfold CInt.in_range, CInt.INT_MIN, CInt.INT_MAX in *.
        destruct m; simpl in *; lia. }
      repeat split; destruct m; simpl in *; lia.
    + cbn. fold balance. repeat split; lia.
  - rewrite perform_unmetered by done. cbn. fold balance. repeat split; lia.
Qed.

End Sessions.

(** X13. Over any sequence of per-modality calls, on any providers, from a
    balance that is a non-negative [int]: every call is answered, the
    provider map is not touched, the balance never rises and never goes
    below zero, and its total drop is exactly the sum of [credits_used] over
    the successful responses. *)
Theorem session_accounting
    (calls : list Session.Request) (s : AIIntegration.Impl) :
  let balance := CreditWallet.cached_balance (AIIntegration.wallet s) in
  0 <= balance <= CInt.INT_MAX →
  let '(responses, s') := Session.perform_all calls s in
  length responses = length calls
  ∧ AIIntegration.configs s' = AIIntegration.configs s
  ∧ CreditWallet.cached_balance (AIIntegration.wallet s')
    = balance - Session.reported responses
  ∧ 0 <= CreditWallet.cached_balance (AIIntegration.wallet s') <= balance.
Proof.
  revert s. induction calls as [| r calls IH]; intros s balance Hb.
  - cbn. unfold Session.reported. cbn. fold balance. repeat split; lia.
  - rewrite perform_all_cons.
    pose proof (perform_charges r s Hb) as H1.
    destruct (Session.perform r s) as [response s1].
    destruct H1 as (Hc1 & Hb1 & Hr1). fold balance in Hb1, Hr1.
    assert (0 <= CreditWallet.cached_balance (AIIntegration.wallet s1)
            <= CInt.INT_MAX) as Hb1' by lia.
    pose proof (IH s1 Hb1') as H2.
    destruct (Session.perform_all calls s1) as [responses s2].
    destruct H2 as (Hl2 & Hc2 & Hb2 & Hr2).
    rewrite reported_cons. cbn [length].
    repeat split; [congruence | congruence | lia | lia | lia].
Qed.

Lemma session_accounting_witness :
  let u := AIIntegration.mkIndeterminate false 0 in
  let request := AIIntegration.mkAIRequest "p" "" ∅ "t" in
  let '(responses, s') :=
    Session.perform_all
      [Session.mkRequest Modality.Image u request AIIntegration.XenoCloud;
       Session.mkRequest Modality.Chat u request AIIntegration.Ollama;
       Session.mkRequest Modality.Video u request AIIntegration.XenoCloud]
      AIIntegration.new in
  CreditWallet.cached_balance (AIIntegration.wallet s')
  = 100 - Session.reported responses.
Proof.
  intros u request.
  pose proof (session_accounting
    [Session.mkRequest Modality.Image u request AIIntegration.XenoCloud;
     Session.mkRequest Modality.Chat u request AIIntegration.Ollama;
     Session.mkRequest Modality.Video u request AIIntegration.XenoCloud]
    AIIntegration.new) as H.
  destruct (Session.perform_all _ AIIntegration.new) as [responses s'].
  destruct H as (_ & _ & H & _); [by vm_compute | exact H].
Defined.

(** X14. Repeating one operation on the metered provider: of [n] calls from
    balance [b], the first [min(n, b / cost)] succeed and no other does, and
    the balance left is [b] minus the cost of those. *)
Theorem metered_operation_until_exhausted
    (m : Modality.t) (u : AIIntegration.Indeterminate)
    (request : AIIntegration.AIRequest) (n : nat) (s : AIIntegration.Impl) :
  let balance := CreditWallet.cached_balance (AIIntegration.wallet s) in
  let paid := Z.min (Z.of_nat n) (balance / Modality.cost m) in
  0 <= balance <= CInt.INT_MAX →
  let '(responses, s') :=
    Session.perform_all
      (replicate n (Session.mkRequest m u request AIIntegration.XenoCloud)) s in
  AIIntegration.success <$> responses
  = replicate (Z.to_nat paid) true ++ replicate (n - Z.to_nat paid) false
  ∧ CreditWallet.cached_balance (AIIntegration.wallet s')
    = balance - Modality.cost m * paid.
Proof.
  assert (0 < Modality.cost m) as Hcost by (by destruct m).
  revert s. induction n as [| n IH]; intros s balance paid Hb.
  - cbn. subst paid. fold balance.
    assert (0 <= balance / Modality.cost m) by (apply Z.div_pos; lia).
    rewrite Z.min_l by lia. simpl. split; [done | lia].
  - cbn [replicate]. rewrite perform_all_cons. unfold Session.perform.
    cbn [Session.modality Session.junk Session.request Session.provider].
    rewrite perform_metered. fold balance.
    destruct (Z.geb_spec balance (Modality.cost m)) as [Hge | Hlt].
    + rewrite deductCredits_wallet, deductCredits_enough by (fold balance; lia).
      fold balance.
      set (s1 := {| AIIntegration.configs := _; AIIntegration.wallet := _ |}).
      assert (CreditWallet.cached_balance (AIIntegration.wallet s1)
              = balance - Modality.cost m) as Hs1.
      { subst s1. cbn. apply wrap_id.
        unfold CInt.in_range, CInt.INT_MIN, CInt.INT_MAX in *. lia. }
      cbn [snd].
      assert (0 <= CreditWallet.cached_balance (AIIntegration.wallet s1)
              <= CInt.INT_MAX) as Hb1 by lia.
      pose proof (IH s1 Hb1) as H. cbv zeta in H.
      destruct (Session.perform_all _ s1) as [responses s2].
      destruct H as [Hresp Hbal]. rewrite Hs1 in Hresp, Hbal.
      assert ((balance - Modality.cost m) / Modality.cost m
              = balance / Modality.cost m - 1) as Hdiv.
      { replace (balance - Modality.cost m)
          with (balance + (-1) * Modality.cost m) by lia.
        rewrite Z.div_add by lia. lia. }
      rewrite Hdiv in Hresp, Hbal.
      assert (1 <= balance / Modality.cost m) as Hq.
      { apply Z.div_le_lower_bound; lia. }
      assert (paid = 1 + Z.min (Z.of_nat n) (balance / Modality.cost m - 1))
        as Hpaid by (subst paid; lia).
      split.
      * rewrite fmap_cons, Hresp, Hpaid. cbn [AIIntegration.success
          AIIntegration.set_credits_used AIIntegration.set_content
          AIIntegration.set_success].
        replace (Z.to_nat (1 + Z.min (Z.of_nat n)
                                 (balance / Modality.cost m - 1)))
          with (S (Z.to_nat (Z.min (Z.of_nat n)
                               (balance / Modality.cost m - 1)))) by lia.
        cbn [replicate app]. reflexivity.
      * rewrite Hbal, Hpaid. lia.
    + assert (balance / Modality.cost m = 0) as Hzero
        by (apply Z.div_small; lia).
      pose proof (IH s Hb) as H. cbv zeta in H. fold balance in H.
      destruct (Session.perform_all _ s) as [responses s2].
      destruct H as [Hresp Hbal]. subst paid.
      rewrite Hzero in *. rewrite Z.min_r in * by lia.
      cbn [Z.to_nat replicate app] in *. rewrite Nat.sub_0_r in *.
      split; [| lia]. rewrite fmap_cons, Hresp. by cbn.
Qed.

Lemma metered_operation_until_exhausted_witness :
  let u := AIIntegration.mkIndeterminate false 0 in
  let request := AIIntegration.mkAIRequest "p" "" ∅ "t" in
  let '(responses, s') :=
    Session.perform_all
      (replicate 40 (Session.mkRequest Modality.Image u request
                       AIIntegration.XenoCloud))
      AIIntegration.new in
  AIIntegration.success <$> responses
  = replicate 33 true ++ replicate 7 false
  ∧ CreditWallet.cached_balance (AIIntegration.wallet s') = 100 - 3 * 33.
Proof.
  intros u request.
  pose proof (metered_operation_until_exhausted Modality.Image u request 40
                AIIntegration.new) as H.
  cbv zeta in H.
  destruct (Session.perform_all _ AIIntegration.new) as [responses s'].
  destruct H as [Hr Hb]; [by vm_compute |].
  split; [exact Hr | exact Hb].
Defined.

(** ** The configuration file as a sequence of [configure] calls *)

Section LoadAsConfigure.

Import AIIntegration.
Implicit Types (s : Impl) (config : json) (p : AIProvider).

Lemma configure_all_app l1 l2 s :
  Session.configure_all (l1 ++ l2) s
  = Session.configure_all l2 (Session.configure_all l1 s).
Proof.
  revert s. induction l1 as [| [p c] l1 IH]; intros s; simpl; auto.
Qed.

(** A loader is the [configure] call of its section, and throws exactly
    when the section fails. *)
Lemma load_xeno_ai_as_configure config :
  ∃ r, (∀ s, load_xeno_ai config s
             = (r, Session.configure_all
                     (Session.section_update config XenoCloud) s))
       ∧ (if Session.section_fails config XenoCloud
          then ∃ e, r = Throw e else r = Ok ()).
Proof.
  unfold load_xeno_ai, Session.section_update, Session.section_fails,
    Session.section_config, ConfigFile.section_readable.
  cbn [ConfigFile.section_name ConfigFile.section_fields forallb].
  destruct (Json.contains config "xeno_ai"); [| by eexists].
  unfold throwing_bind, lift_exn, lift_state.
  destruct (string_field config "xeno_ai" "endpoint") as [e | ?];
    [| eexists; split; [done | cbn; eauto]].
  destruct (string_field config "xeno_ai" "api_key") as [k | ?];
    [| eexists; split; [done | cbn; eauto]].
  by eexists.
Qed.

Lemma load_open_router_as_configure config :
  ∃ r, (∀ s, load_open_router config s
             = (r, Session.configure_all
                     (Session.section_update config OpenRouter) s))
       ∧ (if Session.section_fails config OpenRouter
          then ∃ e, r = Throw e else r = Ok ()).
Proof.
  unfold load_open_router, Session.section_update, Session.section_fails,
    Session.section_config, ConfigFile.section_readable.
  cbn [ConfigFile.section_name ConfigFile.section_fields forallb].
  destruct (Json.contains config "open_router"); [| by eexists].
  unfold throwing_bind, lift_exn, lift_state.
  destruct (string_field config "open_router" "endpoint") as [e | ?];
    [| eexists; split; [done | cbn; eauto]].
  destruct (string_field config "open_router" "api_key") as [k | ?];
    [| eexists; split; [done | cbn; eauto]].
  by eexists.
Qed.

Lemma load_ollama_as_configure config :
  ∃ r, (∀ s, load_ollama config s
             = (r, Session.configure_all
                     (Session.section_update config Ollama) s))
       ∧ (if Session.section_fails config Ollama
          then ∃ e, r = Throw e else r = Ok ()).
Proof.
  unfold load_ollama, Session.section_update, Session.section_fails,
    Session.section_config, ConfigFile.section_readable.
  cbn [ConfigFile.section_name ConfigFile.section_fields forallb].
  destruct (Json.contains config "ollama"); [| by eexists].
  unfold throwing_bind, lift_exn, lift_state.
  destruct (string_field config "ollama" "endpoint") as [e | ?];
    [| eexists; split; [done | cbn; eauto]].
  by eexists.
Qed.

Lemma sections_ok_fails config :
  ConfigFile.sections_ok config
  = negb (Session.section_fails config XenoCloud)
    && (negb (Session.section_fails config OpenRouter)
        && negb (Session.section_fails config Ollama)).
Proof.
  unfold ConfigFile.sections_ok, Session.section_fails. cbn [forallb].
  by repeat destruct (Json.contains _ _), (ConfigFile.section_readable _ _).
Qed.

Lemma section_update_fails config p :
  Session.section_fails config p = true →
  Session.section_update config p = [].
Proof.
  unfold Session.section_fails, Session.section_update,
    Session.section_config, ConfigFile.section_readable.
  destruct (Json.contains config (ConfigFile.section_name p)); [| done].
  destruct p; cbn [ConfigFile.section_name ConfigFile.section_fields forallb];
    repeat destruct (string_field _ _ _); done.
Qed.

(** The three loaders are the [configure] calls of the document, and one of
    them throws exactly when a section that is present is unreadable. *)
Lemma load_sections_as_configure config :
  ∃ r, (∀ s, ConfigFile.load_sections config s
             = (r, Session.configure_all (Session.file_updates config) s))
       ∧ (if ConfigFile.sections_ok config
          then r = Ok true else ∃ e, r = Throw e).
Proof.
  rewrite sections_ok_fails.
  unfold ConfigFile.load_sections, Session.file_updates, throwing_bind,
    lift_exn.
  destruct (load_xeno_ai_as_configure config) as (r1 & H1 & Hr1).
  destruct (load_open_router_as_configure config) as (r2 & H2 & Hr2).
  destruct (load_ollama_as_configure config) as (r3 & H3 & Hr3).
  destruct (Session.section_fails config XenoCloud) eqn:F1.
  { destruct Hr1 as [e ->]. exists (Throw e). split; [| cbn; eauto].
    intros s. by rewrite H1, section_update_fails. }
  subst r1.
  destruct (Session.section_fails config OpenRouter) eqn:F2.
  { destruct Hr2 as [e ->]. exists (Throw e). split; [| cbn; eauto].
    intros s. rewrite H1, H2, (section_update_fails _ OpenRouter) by done.
    by rewrite app_nil_r. }
  subst r2.
  destruct (Session.section_fails config Ollama) eqn:F3.
  { destruct Hr3 as [e ->]. exists (Throw e). split; [| cbn; eauto].
    intros s. rewrite H1, H2, H3, (section_update_fails _ Ollama) by done.
    by rewrite app_nil_r, configure_all_app. }
  subst r3. exists (Ok true). split; [| done].
  intros s. rewrite H1, H2, H3. by rewrite !configure_all_app.
Qed.

Section Files.

Variable ifstream_open : string → option string.
Variable json_parse : string → option json.

Lemma loadConfigFromFile_as_configure path text config s :
  ifstream_open path = Some text →
  json_parse text = Some config →
  loadConfigFromFile ifstream_open json_parse path s
  = (ConfigFile.sections_ok config,
     Session.configure_all (Session.file_updates config) s).
Proof.
  intros Hopen Hparse.
  rewrite (loadConfigFromFile_parsed _ _ _ _ _ _ Hopen Hparse).
  destruct (load_sections_as_configure config) as (r & Hr & Hok).
  rewrite Hr. destruct (ConfigFile.sections_ok config).
  - by subst r.
  - by destruct Hok as [e ->].
Qed.

Lemma loadConfigFromFile_unparsed path s :
  (ifstream_open path = None
   ∨ ∃ text, ifstream_open path = Some text ∧ json_parse text = None) →
  loadConfigFromFile ifstream_open json_parse path s = (false, s).
Proof.
  unfold loadConfigFromFile, try_catch, parse_stream.
  intros [-> | (text & -> & Hparse)]; [done |]. by rewrite Hparse.
Qed.

End Files.

(** The state after a sequence of [configure] calls: later calls win. *)
Lemma configure_all_eq settings s :
  Session.configure_all settings s
  = {| configs := list_to_map (reverse settings) ∪ configs s;
       wallet := wallet s |}.
Proof.
  revert s. induction settings as [| [p c] settings IH]; intros s.
  - destruct s. cbn. by rewrite (left_id_L ∅ (∪)).
  - cbn [Session.configure_all]. rewrite IH, configure_eq.
    unfold set_configs. cbn [snd configs wallet]. f_equal.
    rewrite reverse_cons, list_to_map_app. cbn [list_to_map foldr curry fst snd].
    rewrite insert_empty, <- (assoc_L (∪)).
    by rewrite <- insert_union_singleton_l.
Qed.

Lemma section_config_readable config p :
  ConfigFile.section_readable config p = true
  ↔ is_Some (Session.section_config config p).
Proof.
  unfold Session.section_config, ConfigFile.section_readable.
  destruct p; cbn [ConfigFile.section_name ConfigFile.section_fields forallb];
    repeat destruct (string_field _ _ _); cbn;
    split; (done || eauto || by intros []).
Qed.

Lemma file_updates_ok config :
  ConfigFile.sections_ok config = true →
  Session.file_updates config
  = Session.section_update config XenoCloud
    ++ Session.section_update config OpenRouter
    ++ Session.section_update config Ollama.
Proof.
  rewrite sections_ok_fails, !andb_true_iff, !negb_true_iff.
  intros (F1 & F2 & F3). unfold Session.file_updates. by rewrite F1, F2, F3.
Qed.

(** In a document whose sections are all readable, each section that is
    present yields one [configure] call. *)
Lemma section_update_ok config p :
  ConfigFile.sections_ok config = true →
  if Json.contains config (ConfigFile.section_name p)
  then ∃ c, Session.section_config config p = Some c
            ∧ Session.section_update config p = [(p, c)]
  else Session.section_update config p = [].
Proof.
  intros Hok. unfold Session.section_update.
  destruct (Json.contains config (ConfigFile.section_name p)) eqn:Hc; [| done].
  destruct (proj1 (sections_ok_iff config) Hok p) as [? | Hr]; [congruence |].
  apply section_config_readable in Hr as [c Hc']. rewrite Hc'. eauto.
Qed.

End LoadAsConfigure.

(** X15. When the file opens and parses and every section present has its
    string fields, [loadConfigFromFile] returns true, leaves the wallet
    alone, and the provider map then holds, for each provider whose section
    is present, exactly the configuration read from it (endpoint and key,
    and the header [Authorization: Bearer key]; for the local provider the
    endpoint alone, with an empty key and no header), and for every other
    provider what it held before. *)
Theorem loadConfigFromFile_success
    (ifstream_open : string → option string)
    (json_parse : string → option json)
    (path text : string) (config : json) (s : AIIntegration.Impl) :
  ifstream_open path = Some text →
  json_parse text = Some config →
  ConfigFile.sections_ok config = true →
  let '(r, s') :=
    AIIntegration.loadConfigFromFile ifstream_open json_parse path s in
  r = true
  ∧ AIIntegration.wallet s' = AIIntegration.wallet s
  ∧ ∀ p, if Json.contains config (ConfigFile.section_name p)
         then is_Some (Session.section_config config p)
              ∧ AIIntegration.configs s' !! p = Session.section_config config p
         else AIIntegration.configs s' !! p = AIIntegration.configs s !! p.
Proof.
  intros Hopen Hparse Hok.
  rewrite (loadConfigFromFile_as_configure _ _ _ _ _ _ Hopen Hparse), Hok.
  split; [done |]. split; [apply configure_all_wallet |].
  rewrite file_updates_ok by done.
  pose proof (section_update_ok config AIIntegration.XenoCloud Hok) as H1.
  pose proof (section_update_ok config AIIntegration.OpenRouter Hok) as H2.
  pose proof (section_update_ok config AIIntegration.Ollama Hok) as H3.
  cbn [ConfigFile.section_name] in H1, H2, H3.
  intros p.
  destruct (Json.contains config "xeno_ai") eqn:C1;
    [destruct H1 as (c1 & Hc1 & ->) | rewrite H1];
    (destruct (Json.contains config "open_router") eqn:C2;
      [destruct H2 as (c2 & Hc2 & ->) | rewrite H2]);
    (destruct (Json.contains config "ollama") eqn:C3;
      [destruct H3 as (c3 & Hc3 & ->) | rewrite H3]);
    destruct p; cbn [ConfigFile.section_name];
    rewrite ?C1, ?C2, ?C3, ?Hc1, ?Hc2, ?Hc3;
    cbn; by simplify_map_eq.
Qed.

Lemma loadConfigFromFile_success_witness :
  let '(r, s') :=
    AIIntegration.loadConfigFromFile Session.example_open Session.example_parse
      "full.json" AIIntegration.new in
  r = true
  ∧ AIIntegration.configs s' !! AIIntegration.OpenRouter
    = Some (AIIntegration.mkAPIConfig "https://openrouter.ai" "k2"
              {[ "Authorization" := "Bearer k2" ]}).
Proof.
  pose proof (loadConfigFromFile_success Session.example_open
                Session.example_parse "full.json" "three sections"
                _ AIIntegration.new eq_refl eq_refl eq_refl) as H.
  destruct (AIIntegration.loadConfigFromFile _ _ _ _) as [r s'].
  destruct H as (Hr & _ & H). split; [exact Hr |].
  destruct (H AIIntegration.OpenRouter) as [_ Hc]. exact Hc.
Defined.

(** X16. A document that parses and has none of the three sections (an
    empty object, an object with other keys, or a value that is not an
    object at all, such as an array) is accepted: [loadConfigFromFile]
    returns true and changes nothing. *)
Theorem loadConfigFromFile_without_sections
    (ifstream_open : string → option string)
    (json_parse : string → option json)
    (path text : string) (config : json) (s : AIIntegration.Impl) :
  ifstream_open path = Some text →
  json_parse text = Some config →
  (∀ p, Json.contains config (ConfigFile.section_name p) = false) →
  AIIntegration.loadConfigFromFile ifstream_open json_parse path s = (true, s).
Proof.
  intros Hopen Hparse Hnone.
  assert (ConfigFile.sections_ok config = true) as Hok
    by (apply sections_ok_iff; auto).
  rewrite (loadConfigFromFile_as_configure _ _ _ _ _ _ Hopen Hparse), Hok.
  rewrite file_updates_ok by done. unfold Session.section_update.
  by rewrite !Hnone.
Qed.

Lemma loadConfigFromFile_without_sections_witness :
  AIIntegration.loadConfigFromFile Session.example_open Session.example_parse
    "list.json" AIIntegration.new
  = (true, AIIntegration.new).
Proof.
  apply (loadConfigFromFile_without_sections Session.example_open
           Session.example_parse "list.json" "[]" (JArray []));
    [reflexivity | reflexivity | by intros []].
Defined.

(** X17. Loading the same file a second time changes nothing more: the
    second call returns what the first returned and leaves the state the
    first left, whether the first succeeded, failed at once, or failed
    after writing some entries. *)
Theorem loadConfigFromFile_idempotent
    (ifstream_open : string → option string)
    (json_parse : string → option json)
    (path : string) (s : AIIntegration.Impl) :
  let '(r, s1) :=
    AIIntegration.loadConfigFromFile ifstream_open json_parse path s in
  AIIntegration.loadConfigFromFile ifstream_open json_parse path s1 = (r, s1).
Proof.
  destruct (ifstream_open path) as [text |] eqn:Hopen.
  - destruct (json_parse text) as [config |] eqn:Hparse.
    + rewrite !(loadConfigFromFile_as_configure _ _ _ _ _ _ Hopen Hparse).
      f_equal. rewrite !configure_all_eq. cbn. f_equal.
      by rewrite (assoc_L (∪)), (idemp_L (∪)).
    + rewrite !loadConfigFromFile_unparsed; eauto.
  - rewrite !loadConfigFromFile_unparsed; eauto.
Qed.

(** X18. [loadConfigFromFile] never removes a provider: one that was
    available before the call is available after it, whatever the file
    holds and whatever the call returns. *)
Theorem loadConfigFromFile_keeps_providers
    (ifstream_open : string → option string)
    (json_parse : string → option json)
    (path : string) (p : AIIntegration.AIProvider) (s : AIIntegration.Impl) :
  (AIIntegration.isProviderAvailable p s).1 = true →
  (AIIntegration.isProviderAvailable p
     (AIIntegration.loadConfigFromFile ifstream_open json_parse path s).2).1
  = true.
Proof.
  intros Hp.
  destruct (ifstream_open path) as [text |] eqn:Hopen.
  - destruct (json_parse text) as [config |] eqn:Hparse.
    + rewrite (loadConfigFromFile_as_configure _ _ _ _ _ _ Hopen Hparse).
      rewrite isProviderAvailable_eq in *. cbn [fst snd] in *.
      apply bool_decide_eq_true, configure_all_lookup. left.
      by apply bool_decide_eq_true in Hp.
    + rewrite loadConfigFromFile_unparsed; eauto.
  - rewrite loadConfigFromFile_unparsed; eauto.
Qed.

Lemma loadConfigFromFile_keeps_providers_witness :
  let s :=
    (AIIntegration.configure AIIntegration.XenoCloud
       AIIntegration.APIConfig_default AIIntegration.new).2 in
  (AIIntegration.isProviderAvailable AIIntegration.XenoCloud
     (AIIntegration.loadConfigFromFile ConfigFile.example_open
        ConfigFile.example_parse "ollama.json" s).2).1
  = true.
Proof.
  intros s. by apply loadConfigFromFile_keeps_providers.
Defined.

(** ** Strings, lines and numbers *)

Section StdFacts.

Import Stdlib.Strings.Ascii.
Implicit Types (s t cur : string) (c : ascii).

Lemma app_cons c s t : String c s +:+ t = String c (s +:+ t).
Proof. reflexivity. Qed.

Lemma app_empty_l t : EmptyString +:+ t = t.
Proof. reflexivity. Qed.

Lemma app_empty_r s : s +:+ EmptyString = s.
Proof. induction s as [| c s IH]; [done |]. by rewrite app_cons, IH. Qed.

Lemma app_assoc_string s t r : (s +:+ t) +:+ r = s +:+ (t +:+ r).
Proof. induction s as [| c s IH]; [done |]. by rewrite !app_cons, IH. Qed.

Lemma length_app_string s t :
  String.length (s +:+ t) = (String.length s + String.length t)%nat.
Proof. induction s as [| c s IH]; [done |]. rewrite app_cons. simpl. lia. Qed.

(** A line without newline, followed by a newline, is read as one line. *)
Lemma getlines_line cur s t :
  ConfigManager.free_of Std.newline s = true →
  Std.getlines cur (s +:+ Std.endl +:+ t)
  = (cur +:+ s) :: Std.getlines EmptyString t.
Proof.
  revert cur. induction s as [| c s IH]; intros cur Hs.
  - by rewrite app_empty_l, app_empty_r.
  - cbn [ConfigManager.free_of] in Hs.
    apply andb_true_iff in Hs as [Hc Hs]. apply negb_true_iff in Hc.
    rewrite app_cons. cbn [Std.getlines]. rewrite Hc, IH by done.
    by rewrite app_assoc_string.
Qed.

(** The first [=] of [key=value] is the one after the key. *)
Lemma find_assignment s t :
  ConfigManager.free_of "=" s = true →
  Std.find "=" (s +:+ "=" +:+ t) = Some (String.length s).
Proof.
  induction s as [| c s IH]; intros Hs; [done |].
  cbn [ConfigManager.free_of] in Hs.
  apply andb_true_iff in Hs as [Hc Hs]. apply negb_true_iff in Hc.
  rewrite app_cons. cbn [Std.find]. rewrite Hc, IH by done. done.
Qed.

Lemma find_none s :
  ConfigManager.free_of "=" s = true → Std.find "=" s = None.
Proof.
  induction s as [| c s IH]; intros Hs; [done |].
  cbn [ConfigManager.free_of] in Hs.
  apply andb_true_iff in Hs as [Hc Hs]. apply negb_true_iff in Hc.
  cbn [Std.find]. by rewrite Hc, IH.
Qed.

Lemma substring_all s : String.substring 0 (String.length s) s = s.
Proof. induction s as [| c s IH]; [done |]. simpl. by rewrite IH. Qed.

Lemma substring_prefix s t :
  String.substring 0 (String.length s) (s +:+ t) = s.
Proof.
  induction s as [| c s IH]; [by destruct t |].
  rewrite app_cons. simpl. by rewrite IH.
Qed.

Lemma substring_skip s t n :
  String.substring (String.length s) n (s +:+ t) = String.substring 0 n t.
Proof. induction s as [| c s IH]; [done |]. by rewrite app_cons. Qed.

End StdFacts.

(** ** The configuration manager and its file *)

Section ConfigFiles.

Import Stdlib.Strings.Ascii.
Import ConfigManager.
Implicit Types (c : Impl) (kv : string * string) (l : list (string * string)).

Lemma free_of_app ch s t :
  free_of ch (s +:+ t) = free_of ch s && free_of ch t.
Proof.
  induction s as [| a s IH]; [done |].
  rewrite app_cons. cbn [free_of]. rewrite IH. by rewrite andb_assoc.
Qed.

(** The line of an entry, without its terminator. *)
Lemma save_line_eq kv : save_line kv = (kv.1 +:+ "=" +:+ kv.2) +:+ Std.endl.
Proof. unfold save_line. by rewrite !app_assoc_string. Qed.

Lemma load_line_assignment c key value :
  free_of "=" key = true →
  load_line c (key +:+ "=" +:+ value) = set_entry key value c.
Proof.
  intros Hkey. unfold load_line. rewrite find_assignment by done.
  unfold Std.substr, Std.substr_from. rewrite substring_prefix.
  replace (key +:+ "=" +:+ value) with ((key +:+ "=") +:+ value)
    by (by rewrite app_assoc_string).
  replace (String.length key + 1)%nat with (String.length (key +:+ "="))
    by (rewrite length_app_string; simpl; lia).
  rewrite substring_skip, length_app_string.
  replace (String.length (key +:+ "=") + String.length value
           - String.length (key +:+ "="))%nat
    with (String.length value) by lia.
  by rewrite substring_all.
Qed.

Lemma load_line_other c line :
  free_of "=" line = true → load_line c line = c.
Proof. intros Hline. unfold load_line. by rewrite find_none. Qed.

(** Reading back the lines of entries that hold no newline. *)
Lemma getlines_save l :
  Forall (λ kv, free_of Std.newline kv.1 = true
                ∧ free_of Std.newline kv.2 = true) l →
  Std.getlines EmptyString
    (foldr (λ kv text, save_line kv +:+ text) EmptyString l)
  = (λ kv, kv.1 +:+ "=" +:+ kv.2) <$> l.
Proof.
  induction 1 as [| kv l [Hk Hv] _ IH]; [done |].
  cbn [foldr fmap list_fmap]. rewrite save_line_eq, app_assoc_string.
  rewrite getlines_line, IH; [done |].
  by rewrite !free_of_app, Hk, Hv.
Qed.

Lemma load_lines_assignments l c :
  Forall (λ kv, free_of "=" kv.1 = true) l →
  foldl load_line c ((λ kv, kv.1 +:+ "=" +:+ kv.2) <$> l)
  = foldl (λ c kv, set_entry kv.1 kv.2 c) c l.
Proof.
  intros Hl. revert c. induction Hl as [| kv l Hk _ IH]; intros c; [done |].
  cbn [fmap list_fmap foldl]. by rewrite load_line_assignment, IH.
Qed.

Lemma set_entries_eq l c :
  config_data (foldl (λ c kv, set_entry kv.1 kv.2 c) c l)
  = list_to_map (reverse l) ∪ config_data c.
Proof.
  revert c. induction l as [| [k v] l IH]; intros c.
  - cbn. by rewrite (left_id_L ∅ (∪)).
  - cbn [foldl]. rewrite IH. unfold set_entry. cbn [config_data fst snd].
    rewrite reverse_cons, list_to_map_app. cbn [list_to_map foldr curry fst snd].
    rewrite insert_empty, <- (assoc_L (∪)).
    by rewrite <- insert_union_singleton_l.
Qed.

Lemma entries_Permutation c : entries c ≡ₚ map_to_list (config_data c).
Proof. apply merge_sort_Permutation. Qed.

Lemma entries_lookup c key value :
  (key, value) ∈ entries c ↔ config_data c !! key = Some value.
Proof. by rewrite entries_Permutation, elem_of_map_to_list. Qed.

Lemma entries_to_map c : list_to_map (reverse (entries c)) = config_data c.
Proof.
  etrans; [| apply list_to_map_to_list]. apply list_to_map_proper.
  - rewrite reverse_Permutation, entries_Permutation.
    apply NoDup_fst_map_to_list.
  - by rewrite reverse_Permutation, entries_Permutation.
Qed.

(** Loading the text written for [c] into [c0] gives the entries of [c],
    and those of [c0] under the keys [c] does not have. *)
Lemma load_text_save_text c c0 :
  storable c →
  load_text (save_text c) c0
  = {| config_data := config_data c ∪ config_data c0 |}.
Proof.
  intros Hc. unfold load_text, save_text.
  assert (Forall (λ kv, free_of "=" kv.1 = true
                        ∧ free_of Std.newline kv.1 = true
                        ∧ free_of Std.newline kv.2 = true) (entries c)) as Hl.
  { apply Forall_forall. intros [k v] Hkv. apply entries_lookup in Hkv.
    by apply Hc. }
  rewrite getlines_save
    by (eapply Forall_impl; [exact Hl | by intros ? (? & ? & ?)]).
  rewrite load_lines_assignments
    by (eapply Forall_impl; [exact Hl | by intros ? (? & ? & ?)]).
  pose proof (set_entries_eq (entries c) c0) as H.
  destruct (foldl _ c0 (entries c)) as [m]. cbn in H. subst m.
  by rewrite entries_to_map.
Qed.

(** The text made of the given lines, each terminated. *)
Lemma load_text_lines (lines : list string) c :
  Forall (λ line, free_of Std.newline line = true) lines →
  load_text (foldr (λ line text, line +:+ Std.endl +:+ text) EmptyString lines) c
  = foldl load_line c lines.
Proof.
  intros Hl. unfold load_text. f_equal.
  induction Hl as [| line lines Hline _ IH]; [done |].
  cbn [foldr]. by rewrite getlines_line, IH.
Qed.

End ConfigFiles.

(** X19. What [saveConfig] writes, [loadConfig] reads back: when the file
    can be opened for writing and no key holds [=] or a newline and no
    value a newline, saving succeeds and leaves the manager as it was, and
    loading that file into a manager gives it every entry that was saved,
    keeping only those of its own entries whose key the file does not
    have. Loaded into an empty manager the file gives back exactly the data
    that was saved. *)
Theorem saveConfig_then_loadConfig
    (ofstream_open : string → bool) (path : string)
    (e : ConfigManager.Env) (c0 : ConfigManager.Impl) :
  ofstream_open path = true →
  ConfigManager.storable (ConfigManager.self e) →
  let '(saved, e1) := ConfigManager.saveConfig ofstream_open path e in
  let data := ConfigManager.config_data (ConfigManager.self e) in
  saved = true
  ∧ ConfigManager.self e1 = ConfigManager.self e
  ∧ ConfigManager.loadConfig path
      {| ConfigManager.self := c0; ConfigManager.disk := ConfigManager.disk e1 |}
    = (true,
       {| ConfigManager.self :=
            {| ConfigManager.config_data :=
                 data ∪ ConfigManager.config_data c0 |};
          ConfigManager.disk := ConfigManager.disk e1 |})
  ∧ data ∪ ConfigManager.config_data ConfigManager.new = data.
Proof.
  intros Hopen Hstorable. unfold ConfigManager.saveConfig. rewrite Hopen.
  cbn zeta. split; [done |]. split; [done |]. split.
  - unfold ConfigManager.loadConfig.
    cbn [ConfigManager.disk ConfigManager.self].
    rewrite lookup_insert_eq. by rewrite load_text_save_text.
  - cbn. apply (right_id_L ∅ (∪)).
Qed.

Lemma saveConfig_then_loadConfig_witness :
  let c := (ConfigManager.setInt "volume" 7
              (ConfigManager.setString "theme" "dark" ConfigManager.new).2).2 in
  let e := {| ConfigManager.self := c; ConfigManager.disk := ∅ |} in
  let '(saved, e1) := ConfigManager.saveConfig (λ _, true) "app.conf" e in
  ConfigManager.self
    (ConfigManager.loadConfig "app.conf"
       {| ConfigManager.self := ConfigManager.new;
          ConfigManager.disk := ConfigManager.disk e1 |}).2
  = {| ConfigManager.config_data :=
         ConfigManager.config_data c ∪ ∅ |}.
Proof.
  intros c e.
  pose proof (saveConfig_then_loadConfig (λ _, true) "app.conf" e
                ConfigManager.new eq_refl) as H.
  destruct (ConfigManager.saveConfig (λ _, true) "app.conf" e) as [saved e1].
  destruct H as (_ & _ & H & _).
  - intros key value Hkv. cbn in Hkv.
    apply lookup_insert_Some in Hkv as [[<- <-] | [_ Hkv]]; [by vm_compute |].
    apply lookup_insert_Some in Hkv as [[<- <-] | [_ Hkv]]; [by vm_compute |].
    by rewrite lookup_empty in Hkv.
  - by rewrite H.
Defined.

Section ConfigLines.

Import Stdlib.Strings.Ascii.

(** X20. Lines without [=] are skipped: loading a text whose lines hold no
    [=] (blank lines, comments, stray words) changes nothing, and the call
    still returns true; a file that cannot be opened makes it return false
    and changes nothing either. *)
Theorem loadConfig_skips_lines_without_assignment
    (path : string) (lines : list string) (e : ConfigManager.Env) :
  Forall (λ line, ConfigManager.free_of Std.newline line = true
                  ∧ ConfigManager.free_of "="%char line = true) lines →
  (ConfigManager.disk e !! path
   = Some (foldr (λ line text, line +:+ Std.endl +:+ text) EmptyString lines) →
   ConfigManager.loadConfig path e = (true, e))
  ∧ (ConfigManager.disk e !! path = None →
     ConfigManager.loadConfig path e = (false, e)).
Proof.
  intros Hlines. unfold ConfigManager.loadConfig. split; intros ->; [| done].
  rewrite load_text_lines
    by (eapply Forall_impl; [exact Hlines | by intros ? [? ?]]).
  assert (foldl ConfigManager.load_line (ConfigManager.self e) lines
          = ConfigManager.self e) as ->; [| by destruct e].
  generalize (ConfigManager.self e).
  induction Hlines as [| line lines [_ Hline] _ IH]; intros c; [done |].
  cbn [foldl]. by rewrite load_line_other, IH.
Qed.

Lemma loadConfig_skips_lines_without_assignment_witness :
  let e := {| ConfigManager.self := ConfigManager.new;
              ConfigManager.disk :=
                {[ "notes.txt" := "# settings" +:+ Std.endl +:+ Std.endl ]} |} in
  ConfigManager.loadConfig "notes.txt" e = (true, e).
Proof.
  intros e.
  destruct (loadConfig_skips_lines_without_assignment "notes.txt"
              ["# settings"; EmptyString] e) as [H _].
  - by repeat constructor.
  - apply H. reflexivity.
Defined.

(** X21. In a file the last assignment to a key wins, and a value runs to
    the end of its line, further [=] included: after loading lines that end
    with [key=value], [getString(key)] returns [value]. *)
Theorem loadConfig_last_assignment_wins
    (path : string) (lines : list string) (key value fallback : string)
    (e : ConfigManager.Env) :
  Forall (λ line, ConfigManager.free_of Std.newline line = true) lines →
  ConfigManager.free_of "="%char key = true →
  ConfigManager.free_of Std.newline key = true →
  ConfigManager.free_of Std.newline value = true →
  ConfigManager.disk e !! path
  = Some (foldr (λ line text, line +:+ Std.endl +:+ text) EmptyString
            (lines ++ [key +:+ "=" +:+ value])) →
  let '(r, e1) := ConfigManager.loadConfig path e in
  r = true
  ∧ (ConfigManager.getString key fallback (ConfigManager.self e1)).1 = value.
Proof.
  intros Hlines Hkey Hkeyn Hvalue Hdisk.
  unfold ConfigManager.loadConfig. rewrite Hdisk. split; [done |].
  cbn [ConfigManager.self]. rewrite load_text_lines.
  - rewrite foldl_app. cbn [foldl]. rewrite load_line_assignment by done.
    unfold ConfigManager.getString, mbind, State_bind, get. cbn.
    by rewrite lookup_insert_eq.
  - apply Forall_app. split; [done |]. apply Forall_singleton.
    by rewrite !free_of_app, Hkeyn, Hvalue.
Qed.

Lemma loadConfig_last_assignment_wins_witness :
  let e := {| ConfigManager.self := ConfigManager.new;
              ConfigManager.disk :=
                {[ "a.conf" := "url=x" +:+ Std.endl +:+ "url=http://h/?a=b"
                               +:+ Std.endl ]} |} in
  let '(r, e1) := ConfigManager.loadConfig "a.conf" e in
  r = true
  ∧ (ConfigManager.getString "url" "" (ConfigManager.self e1)).1
    = "http://h/?a=b".
Proof.
  intros e.
  apply (loadConfig_last_assignment_wins "a.conf" ["url=x"] "url"
           "http://h/?a=b" "" e); try reflexivity.
  by repeat constructor.
Defined.

End ConfigLines.

(** ** Numbers in the configuration *)

Section Numbers.

Import Stdlib.Strings.Ascii.
Implicit Types (s t : string) (c : ascii).

Lemma pretty_N_char_digit (d : N) :
  (d < 10)%N →
  Std.isdigit (pretty_N_char d) = true
  ∧ Std.digit_value (pretty_N_char d) = Z.of_N d.
Proof.
  intros Hd.
  destruct d as [| p]; [by vm_compute |].
  do 4 (destruct p as [p | p |]; try lia; try by vm_compute).
Qed.

Lemma isdigit_not_space c : Std.isdigit c = true → Std.isspace c = false.
Proof.
  unfold Std.isdigit, Std.isspace. generalize (Std.char_code c). intros n.
  destruct (Z.leb_spec 48 n), (Z.leb_spec n 57), (Z.eqb_spec n 32),
    (Z.leb_spec 9 n), (Z.leb_spec n 13); simpl; (done || lia).
Qed.

Lemma isdigit_not_sign c :
  Std.isdigit c = true → Ascii.eqb c "-" = false ∧ Ascii.eqb c "+" = false.
Proof.
  intros Hc. split; apply not_true_is_false; intros ->%Ascii.eqb_eq;
    by vm_compute in Hc.
Qed.

Lemma parse_digits_stop acc t :
  Std.starts_with_digit t = false → Std.parse_digits acc t = acc.
Proof. destruct t as [| c t]; [done |]. simpl. by intros ->. Qed.

(** The digits [pretty_N_go] puts in front of [s] are read back as the
    number. *)
Lemma parse_digits_pretty (x : N) s :
  Std.parse_digits 0 (pretty_N_go x s) = Std.parse_digits (Z.of_N x) s.
Proof.
  revert s. induction (N.lt_wf_0 x) as [x _ IH]; intros s.
  destruct (decide (x = 0)%N) as [-> | Hx]; [by rewrite pretty_N_go_0 |].
  rewrite pretty_N_go_step by lia.
  rewrite IH by (apply N.div_lt; lia).
  destruct (pretty_N_char_digit (x mod 10)) as [Hd Hv];
    [apply N.mod_lt; lia |].
  cbn [Std.parse_digits]. rewrite Hd, Hv. f_equal.
  rewrite (N.div_mod x 10) at 3 by lia. lia.
Qed.

Lemma pretty_starts_with_digit (x : N) s :
  (0 < x)%N → Std.starts_with_digit (pretty_N_go x s) = true.
Proof.
  revert s. induction (N.lt_wf_0 x) as [x _ IH]; intros s Hx.
  rewrite pretty_N_go_step by done.
  destruct (decide (x `div` 10 = 0)%N) as [-> | Hq].
  - rewrite pretty_N_go_0. cbn.
    apply pretty_N_char_digit, N.mod_lt. lia.
  - apply IH; [apply N.div_lt; lia | by apply N.neq_0_lt_0].
Qed.

Lemma pretty_N_go_app (x : N) s t :
  pretty_N_go x s +:+ t = pretty_N_go x (s +:+ t).
Proof.
  revert s. induction (N.lt_wf_0 x) as [x _ IH]; intros s.
  destruct (decide (x = 0)%N) as [-> | Hx]; [by rewrite !pretty_N_go_0 |].
  rewrite (pretty_N_go_step x s), (pretty_N_go_step x (s +:+ t)) by lia.
  rewrite IH by (apply N.div_lt; lia). reflexivity.
Qed.

Lemma skip_space_spaces s t :
  Std.all_space s = true → Std.skip_space (s +:+ t) = Std.skip_space t.
Proof.
  induction s as [| c s IH]; [done |]. cbn [Std.all_space].
  intros [Hc Hs]%andb_true_iff. rewrite app_cons. cbn [Std.skip_space].
  by rewrite Hc, IH.
Qed.

(** [stoi] on text that starts with a digit, or with a minus sign and a
    digit, or with white space. *)
Lemma stoi_unsigned r :
  Std.starts_with_digit r = true →
  Std.stoi r
  = if (CInt.INT_MIN <=? Std.parse_digits 0 r)
       && (Std.parse_digits 0 r <=? CInt.INT_MAX)
    then Ok (Std.parse_digits 0 r) else Throw "stoi: out of range".
Proof.
  destruct r as [| c r]; [done |]. cbn [Std.starts_with_digit]. intros Hc.
  unfold Std.stoi. cbn [Std.skip_space]. rewrite (isdigit_not_space c Hc).
  destruct (isdigit_not_sign c Hc) as [H1 H2]. cbv beta iota zeta.
  rewrite H1, H2. cbv beta iota zeta. cbn [Std.starts_with_digit].
  by rewrite Hc.
Qed.

Lemma stoi_minus r :
  Std.starts_with_digit r = true →
  Std.stoi (String "-" r)
  = if (CInt.INT_MIN <=? - Std.parse_digits 0 r)
       && (- Std.parse_digits 0 r <=? CInt.INT_MAX)
    then Ok (- Std.parse_digits 0 r) else Throw "stoi: out of range".
Proof.
  intros Hr. unfold Std.stoi. cbn [Std.skip_space].
  replace (Std.isspace "-") with false by (by vm_compute).
  cbv beta iota zeta.
  replace (Ascii.eqb "-" "-") with true by (by vm_compute).
  cbv beta iota zeta. by rewrite Hr.
Qed.

Lemma stoi_skip_space s r :
  Std.all_space s = true → Std.stoi (s +:+ r) = Std.stoi r.
Proof. intros Hs. unfold Std.stoi. by rewrite skip_space_spaces. Qed.

Lemma stoi_to_string (n : Z) s t :
  CInt.in_range n →
  Std.all_space s = true →
  Std.starts_with_digit t = false →
  Std.stoi (s +:+ Std.to_string n +:+ t) = Ok n.
Proof.
  unfold CInt.in_range. intros Hn Hs Ht. rewrite stoi_skip_space by done.
  assert ((CInt.INT_MIN <=? n) && (n <=? CInt.INT_MAX) = true) as Hrange
    by lia.
  unfold Std.to_string, pretty, pretty_Z.
  destruct n as [| p | p].
  - rewrite app_cons, app_empty_l, stoi_unsigned by done.
    cbn [Std.parse_digits]. replace (Std.isdigit "0") with true by done.
    rewrite parse_digits_stop by done.
    replace (0 * 10 + Std.digit_value "0") with 0 by done.
    by rewrite Hrange.
  - unfold pretty, pretty_positive, pretty, pretty_N.
    rewrite decide_False by done. rewrite pretty_N_go_app, app_empty_l.
    rewrite stoi_unsigned by (by apply pretty_starts_with_digit).
    rewrite parse_digits_pretty, parse_digits_stop by done.
    change (Z.of_N (N.pos p)) with (Z.pos p). by rewrite Hrange.
  - unfold pretty, pretty_positive, pretty, pretty_N.
    rewrite decide_False by done.
    rewrite app_assoc_string, pretty_N_go_app, app_empty_l.
    change ("-" +:+ pretty_N_go (N.pos p) t)
      with (String "-" (pretty_N_go (N.pos p) t)).
    rewrite stoi_minus by (by apply pretty_starts_with_digit).
    rewrite parse_digits_pretty, parse_digits_stop by done.
    change (- Z.of_N (N.pos p)) with (Z.neg p). by rewrite Hrange.
Qed.

(** Whatever [stoi] returns is an [int]. *)
Lemma stoi_in_range s n : Std.stoi s = Ok n → CInt.in_range n.
Proof.
  unfold Std.stoi, CInt.in_range.
  destruct (match Std.skip_space s with
            | String c s' => _ | EmptyString => _ end) as [negative r].
  destruct (Std.starts_with_digit r); [| done].
  destruct (_ && _) eqn:Hr; [| done]. intros [= <-]. lia.
Qed.

End Numbers.

(** ** Typed access to the configuration *)

Section Accessors.

Import ConfigManager.
Implicit Types (c : Impl) (key : string).

Lemma getInt_eq key default c :
  getInt key default c
  = (match config_data c !! key with
     | Some value =>
         match Std.stoi value with Ok n => n | Throw _ => default end
     | None => default
     end, c).
Proof.
  unfold getInt, mbind, State_bind, get.
  destruct (config_data c !! key) as [value |]; [| done].
  by destruct (Std.stoi value).
Qed.

Lemma getBool_eq key default c :
  getBool key default c
  = (match config_data c !! key with
     | Some value => String.eqb value "true" || String.eqb value "1"
     | None => default
     end, c).
Proof.
  unfold getBool, mbind, State_bind, get.
  by destruct (config_data c !! key).
Qed.

(** The decimal text of a number is neither ["true"] nor ["false"]. *)
Lemma to_string_not_word (n : Z) :
  String.eqb (Std.to_string n) "true" = false.
Proof.
  apply not_true_is_false. intros Heq%String.eqb_eq.
  unfold Std.to_string, pretty, pretty_Z in Heq.
  destruct n as [| p | p]; [done | | done].
  unfold pretty, pretty_positive, pretty, pretty_N in Heq.
  rewrite decide_False in Heq by done.
  pose proof (pretty_starts_with_digit (N.pos p) EmptyString eq_refl) as Hd.
  rewrite Heq in Hd. by vm_compute in Hd.
Qed.

End Accessors.

(** X22. An integer written with [setInt] is read back by [getInt]: for
    every [int] value, key and default, [getInt] after [setInt] returns the
    value. *)
Theorem getInt_after_setInt
    (key : string) (n default : Z) (c : ConfigManager.Impl) :
  CInt.in_range n →
  (ConfigManager.getInt key default (ConfigManager.setInt key n c).2).1 = n.
Proof.
  intros Hn. rewrite getInt_eq. cbn. rewrite lookup_insert_eq.
  pose proof (stoi_to_string n EmptyString EmptyString Hn eq_refl eq_refl) as H.
  rewrite app_empty_l, app_empty_r in H. by rewrite H.
Qed.

Lemma getInt_after_setInt_witness :
  (ConfigManager.getInt "timeout" 0
     (ConfigManager.setInt "timeout" (-2147483648) ConfigManager.new).2).1
  = -2147483648.
Proof. apply getInt_after_setInt. by vm_compute. Defined.

(** X23. [getInt] reads a number out of surrounding text: when the stored
    value is white space, then the decimal text of an [int], then anything
    that does not begin with a digit, it returns that [int] and not the
    default. *)
Theorem getInt_ignores_surrounding_text
    (key before after : string) (n default : Z) (c : ConfigManager.Impl) :
  CInt.in_range n →
  Std.all_space before = true →
  Std.starts_with_digit after = false →
  ConfigManager.config_data c !! key
  = Some (before +:+ Std.to_string n +:+ after) →
  (ConfigManager.getInt key default c).1 = n.
Proof.
  intros Hn Hb Ha Hkey. rewrite getInt_eq, Hkey. cbn.
  by rewrite stoi_to_string.
Qed.

Lemma getInt_ignores_surrounding_text_witness :
  (ConfigManager.getInt "width" 0
     (ConfigManager.setString "width" "  640px" ConfigManager.new).2).1
  = 640.
Proof.
  apply (getInt_ignores_surrounding_text "width" "  " "px" 640 0);
    [by vm_compute | reflexivity | reflexivity | reflexivity].
Defined.

(** X24. [getInt] never fails and never returns anything but the default
    or an [int]: a missing key gives the default, a stored text that
    [stoi] rejects (no number, or a number that is not an [int]) gives the
    default, and the manager is not changed. *)
Theorem getInt_default_or_int
    (key : string) (default : Z) (c : ConfigManager.Impl) :
  let '(r, c') := ConfigManager.getInt key default c in
  c' = c
  ∧ (r = default ∨ CInt.in_range r)
  ∧ (ConfigManager.config_data c !! key = None → r = default)
  ∧ (∀ value e, ConfigManager.config_data c !! key = Some value →
                Std.stoi value = Throw e → r = default).
Proof.
  rewrite getInt_eq. split; [done |].
  destruct (ConfigManager.config_data c !! key) as [value |];
    [| by repeat split; auto].
  destruct (Std.stoi value) as [n | e] eqn:Hstoi.
  - repeat split; [right; by eapply stoi_in_range | done |].
    intros ?? [= <-] ?. congruence.
  - repeat split; auto.
Qed.

(** X25. [getBool] after [setBool] returns the value written, whatever the
    default. For a key that is present [getBool] is true exactly when the
    stored text is ["true"] or ["1"], and the default plays no part; the
    default is returned only for a missing key. *)
Theorem getBool_reads_true_or_one
    (key : string) (default : bool) (c : ConfigManager.Impl) :
  (∀ b, (ConfigManager.getBool key default
           (ConfigManager.setBool key b c).2).1 = b)
  ∧ (∀ value, ConfigManager.config_data c !! key = Some value →
              ((ConfigManager.getBool key default c).1 = true
               ↔ value = "true" ∨ value = "1"))
  ∧ (ConfigManager.config_data c !! key = None →
     (ConfigManager.getBool key default c).1 = default).
Proof.
  split; [| split].
  - intros b. rewrite getBool_eq. cbn. rewrite lookup_insert_eq.
    by destruct b.
  - intros value Hkey. rewrite getBool_eq, Hkey. cbn. split.
    + intros [->%String.eqb_eq | ->%String.eqb_eq]%orb_true_iff; auto.
    + by intros [-> | ->].
  - intros Hnone. by rewrite getBool_eq, Hnone.
Qed.

(** X26. The accessors do not remember the type that was written. After
    [setInt(key, n)], [getBool] is true exactly when [n] is 1 and
    [getString] returns the decimal text; after [setBool], [getInt] returns
    its default. *)
Theorem accessors_ignore_written_type
    (key : string) (c : ConfigManager.Impl) :
  (∀ n default,
     (ConfigManager.getBool key default (ConfigManager.setInt key n c).2).1
     = true ↔ n = 1)
  ∧ (∀ n default,
       (ConfigManager.getString key default
          (ConfigManager.setInt key n c).2).1 = Std.to_string n)
  ∧ (∀ b default,
       (ConfigManager.getInt key default
          (ConfigManager.setBool key b c).2).1 = default).
Proof.
  repeat split.
  - rewrite getBool_eq. cbn. rewrite lookup_insert_eq.
    rewrite to_string_not_word. cbn.
    intros Heq%String.eqb_eq. by apply (pretty_Z_inj n 1).
  - intros ->. rewrite getBool_eq. cbn. by rewrite lookup_insert_eq.
  - intros n default. unfold ConfigManager.getString, mbind, State_bind, get.
    cbn. by rewrite lookup_insert_eq.
  - intros b default. rewrite getInt_eq. cbn. rewrite lookup_insert_eq.
    by destruct b.
Qed.

(** ** The logger *)

Section Logging.

Import Logger.

Lemma log_eq level message (e : Env) :
  log level message e
  = ((), if level_value level >=? level_value (current_level (self e))
         then {| self := self e; cout := cout e +:+ line (level, message) |}
         else e).
Proof.
  unfold log, mbind, State_bind, get.
  by destruct (_ >=? _).
Qed.

End Logging.

(** X27. Over any sequence of [log] calls the threshold is unchanged and
    the output grows by the lines of exactly the messages whose level is at
    least the threshold, in call order, each as [[NAME] message] and a
    newline, with the name of the message's own level; messages at [ERROR]
    are written at every threshold. *)
Theorem log_writes_messages_at_or_above_level
    (messages : list (Logger.Level * string)) (e : Logger.Env) :
  let threshold := Logger.current_level (Logger.self e) in
  let passes (m : Logger.Level * string) :=
    bool_decide (Logger.level_value threshold <= Logger.level_value m.1) in
  let '(_, e') := Logger.log_all messages e in
  Logger.self e' = Logger.self e
  ∧ Logger.cout e'
    = Logger.cout e
      +:+ foldr (λ m out, Logger.line m +:+ out) EmptyString
            (filter (λ m, passes m = true) messages)
  ∧ (∀ message, passes (Logger.ERROR, message) = true
                ∧ Logger.line (Logger.ERROR, message)
                  = "[ERROR] " +:+ message +:+ Std.endl).
Proof.
  intros threshold passes. subst threshold.
  assert (∀ message, passes (Logger.ERROR, message) = true
                     ∧ Logger.line (Logger.ERROR, message)
                       = "[ERROR] " +:+ message +:+ Std.endl) as Herr.
  { intros message. split; [| done]. subst passes. cbn.
    apply bool_decide_eq_true. by destruct (Logger.current_level _). }
  revert e passes Herr. induction messages as [| [level message] rest IH];
    intros e passes Herr.
  - cbn. by rewrite app_empty_r.
  - cbn [Logger.log_all]. unfold mbind, State_bind. rewrite log_eq.
    rewrite filter_cons. subst passes. cbn [fst].
    destruct (Z.geb_spec (Logger.level_value level)
                (Logger.level_value (Logger.current_level (Logger.self e))))
      as [Hge | Hlt].
    + rewrite bool_decide_eq_true_2 by lia. rewrite decide_True by done.
      specialize (IH {| Logger.self := Logger.self e;
                        Logger.cout := Logger.cout e
                                       +:+ Logger.line (level, message) |}).
      cbn [Logger.self Logger.cout] in IH.
      destruct (Logger.log_all rest _) as [[] e'].
      destruct (IH Herr) as (Hs & Hc & _). split; [done |]. split; [| done].
      rewrite Hc. cbn [foldr]. by rewrite app_assoc_string.
    + rewrite bool_decide_eq_false_2 by lia. rewrite decide_False by done.
      specialize (IH e). destruct (Logger.log_all rest e) as [[] e'].
      by destruct (IH Herr) as (Hs & Hc & _).
Qed.
